(** * Binance exchange adapter: symbol normalisation, precision, clock,
      signed retries, order cache and order lookup

    A shallow embedding of [src/exchanges/BinanceExchangeClient.ts] and of
    the position-size helpers of the utilities module, with the properties
    the specification states about them.

    Conventions of the embedding.
    - JavaScript strings are [string]; the instrument identifiers handled
      here are ASCII.
    - Millisecond timestamps, offsets and error codes are [Z].
    - Quantities and prices are exact rationals [Q]: [Math.floor] is
      [Qfloor], [Math.pow 10 d] is [10 ^ d], and [Math.floor (Math.log10 x)]
      is the exact decimal order of magnitude.  Binary rounding of doubles
      is outside this model.
    - The [Map] holding the order cache is an association list in insertion
      order, without duplicate keys.
    - Asynchronous methods are functions in a state-and-error monad over a
      [World]: the client's fields, the readings [Date.now()] will return,
      the outcomes [fetch] will have, and a log of what was done. *)

From Stdlib Require Import String Ascii List ZArith QArith Qround Qpower DecimalString.
From Stdlib Require Import Qabs Lia Lqa Bool Permutation Sorted Arith.
From Stdlib Require DecimalPos DecimalZ.
Import ListNotations.

(** ** JavaScript string primitives *)

Module JsString.

Open Scope string_scope.

(** [s.startsWith(pat)] *)
Fixpoint startsWith (pat s : string) : bool :=
  match pat, s with
  | EmptyString, _ => true
  | String _ _, EmptyString => false
  | String a pat', String b s' => (Ascii.eqb a b && startsWith pat' s')%bool
  end.

(** [s.includes(pat)] *)
Fixpoint includes (pat s : string) : bool :=
  (startsWith pat s ||
   match s with
   | EmptyString => false
   | String _ s' => includes pat s'
   end)%bool.

(** [s.endsWith(pat)] *)
Fixpoint endsWith (pat s : string) : bool :=
  (String.eqb pat s ||
   match s with
   | EmptyString => false
   | String _ s' => endsWith pat s'
   end)%bool.

Fixpoint drop (n : nat) (s : string) : string :=
  match n, s with
  | O, _ => s
  | S _, EmptyString => EmptyString
  | S n', String _ s' => drop n' s'
  end.

(** [s.replace(pat, rep)] with a string pattern: only the first occurrence
    is replaced. *)
Fixpoint replace (pat rep s : string) : string :=
  if startsWith pat s then rep ++ drop (String.length pat) s
  else match s with
       | EmptyString => EmptyString
       | String c s' => String c (replace pat rep s')
       end.

(** [c] does not occur in [s]. *)
Fixpoint lacks (c : ascii) (s : string) : bool :=
  match s with
  | EmptyString => true
  | String b s' => (negb (Ascii.eqb c b) && lacks c s')%bool
  end.

Fixpoint all_chars (p : ascii -> bool) (s : string) : bool :=
  match s with
  | EmptyString => true
  | String b s' => (p b && all_chars p s')%bool
  end.

End JsString.

(** ** Symbol normaliser *)

Module Symbol.

Import JsString.
Open Scope string_scope.

(** [normalizeContract], lines 87-97. *)
Definition normalizeContract (symbol : string) : string :=
  let normalized :=
    replace ":USDT" "" (replace "/" "" (replace "_" "" symbol)) in
  if (negb (endsWith "USDT" normalized) && negb (includes "USDT" normalized))%bool
  then normalized ++ "USDT"
  else normalized.

(** [extractSymbol], lines 99-103. *)
Definition extractSymbol (contract : string) : string :=
  let normalized := normalizeContract contract in
  replace "USDT" "" normalized.

(** An asset ticker: a non-empty run of ASCII letters and digits. *)
Definition is_alnum (c : ascii) : bool :=
  let n := nat_of_ascii c in
  ((48 <=? n) && (n <=? 57) || (65 <=? n) && (n <=? 90)
   || (97 <=? n) && (n <=? 122))%nat%bool.

Definition ticker (s : string) : bool :=
  (negb (String.eqb s "") && all_chars is_alnum s)%bool.

(** The input formats the adapter is required to accept. *)
Inductive Format : Type :=
| Bare (base : string)                 (* "BTC" *)
| SlashPair (base quote : string)      (* "BTC/USDT" *)
| Settled (base quote : string)        (* "BTC/USDT:USDT" *)
| UnderscorePair (base quote : string) (* "BTC_USDT" *)
| Canonical (base : string).           (* "BTCUSDT" *)

Definition render (f : Format) : string :=
  match f with
  | Bare b => b
  | SlashPair b q => b ++ "/" ++ q
  | Settled b q => b ++ "/" ++ q ++ ":USDT"
  | UnderscorePair b q => b ++ "_" ++ q
  | Canonical b => b ++ "USDT"
  end.

Definition well_formed (f : Format) : bool :=
  match f with
  | Bare b | Canonical b => ticker b
  | SlashPair b q | Settled b q | UnderscorePair b q => (ticker b && ticker q)%bool
  end.

(** The same formats with the quote asset fixed to USDT. *)
Definition usdt_formats (base : string) : list Format :=
  [Bare base; SlashPair base "USDT"; Settled base "USDT";
   UnderscorePair base "USDT"; Canonical base].

(** The two stages of [normalizeContract]: separators are stripped, then
    the quote asset is appended when none is present. *)
Definition strip (s : string) : string :=
  replace ":USDT" "" (replace "/" "" (replace "_" "" s)).

Definition complete (n : string) : string :=
  if (negb (endsWith "USDT" n) && negb (includes "USDT" n))%bool
  then n ++ "USDT" else n.

(** What is left of each accepted format once the separators are gone. *)
Definition core (f : Format) : string :=
  match f with
  | Bare b => b
  | SlashPair b q | Settled b q | UnderscorePair b q => b ++ q
  | Canonical b => b ++ "USDT"
  end.

End Symbol.


(** ** Precision normaliser *)

Module Precision.

Open Scope Q_scope.

(** [Math.pow(10, d)] *)
Definition pow10 (d : Z) : Q := 10 ^ d.

(** [Math.floor(Math.log10(x))] for [x > 0]: the decimal order of
    magnitude [e], with [10^e <= x < 10^(e+1)].  It is found by scaling [x]
    by ten until it lies in [[1, 10)], which takes at most as many steps as
    the numerator (for [x >= 1]) or the denominator (for [x < 1]) has
    bits. *)
Fixpoint magnitude_up (fuel : nat) (x : Q) : Z :=
  match fuel with
  | O => 0%Z
  | S f => if Qle_bool 10 x then (1 + magnitude_up f (x * (1 # 10)))%Z else 0%Z
  end.

Fixpoint magnitude_down (fuel : nat) (x : Q) : Z :=
  match fuel with
  | O => (-1)%Z
  | S f => if Qle_bool 1 (x * 10) then (-1)%Z
           else (-1 + magnitude_down f (x * 10))%Z
  end.

Definition floor_log10 (x : Q) : Z :=
  if Qle_bool 1 x
  then magnitude_up (S (Z.to_nat (Z.log2 (Qnum x)))) x
  else magnitude_down (Z.to_nat (Z.log2 (Zpos (Qden x)))) x.


(** [Math.abs(x)] *)
Definition abs (x : Q) : Q := Qabs.Qabs x.

(** [minQty >= 1 ? 0 : Math.abs(Math.floor(Math.log10(minQty)))],
    lines 518 and 902. *)
Definition decimalPlaces (minQty : Q) : Z :=
  if Qle_bool 1 minQty then 0%Z else Z.abs (floor_log10 minQty).

(** [Math.floor(x * multiplier) / multiplier], lines 522, 906 and 912. *)
Definition floorTo (multiplier x : Q) : Q :=
  inject_Z (Qfloor (x * multiplier)) / multiplier.

(** The body of the inner [try] of [placeOrder], lines 510-523: the
    quantity sent for an order of signed size [size] on a contract whose
    minimum order size is [minQty]. *)
Definition orderQuantity (minQty size : Q) : Q :=
  let quantity := abs size in
  let decimalPlaces := decimalPlaces minQty in
  let multiplier := pow10 decimalPlaces in
  floorTo multiplier quantity.

(** [placeOrder]'s quantity, with the fallback of lines 525-529 taken when
    [getContractInfo] failed ([contractInfo = None]). *)
Definition placeOrderQuantity (contractInfo : option Q) (size : Q) : Q :=
  match contractInfo with
  | Some minQty => orderQuantity minQty size
  | None => floorTo 1000 (abs size)
  end.



(** [calculatePnl], lines 924-940. *)
Inductive Side : Type := long | short.

Definition calculatePnl (entryPrice exitPrice quantity : Q) (side : Side) : Q :=
  match side with
  | long => quantity * (exitPrice - entryPrice)
  | short => quantity * (entryPrice - exitPrice)
  end.

End Precision.

(** ** The client: state, environment and the monad of its methods *)

Module Adapter.

Import JsString.
Open Scope string_scope.
Open Scope Z_scope.

(** Objects and [Map]s keyed by strings keep their keys in insertion
    order: assigning to a key that is present replaces its value in place,
    assigning to a new key appends it. *)
Fixpoint assocGet {V : Type} (k : string) (m : list (string * V)) : option V :=
  match m with
  | [] => None
  | (k', v) :: m' => if String.eqb k k' then Some v else assocGet k m'
  end.

Fixpoint assocSet {V : Type} (k : string) (v : V) (m : list (string * V))
  : list (string * V) :=
  match m with
  | [] => [(k, v)]
  | (k', v') :: m' =>
    if String.eqb k k' then (k, v) :: m' else (k', v') :: assocSet k v m'
  end.

Definition assocDelete {V : Type} (k : string) (m : list (string * V))
  : list (string * V) :=
  filter (fun kv => negb (String.eqb k (fst kv))) m.

(** Constants of the class, lines 49, 54, 55, 152 and 175. *)
Definition defaultRecvWindow : Z := 60000.
Definition MAX_CACHE_SIZE : nat := 1000.
Definition CACHE_TTL : Z := 24 * 60 * 60 * 1000.
Definition SAFETY_MARGIN_MS : Z := 2000.
Definition RESYNC_INTERVAL : Z := 2 * 60 * 1000.
Definition CLOCK_DRIFT : Z := -1021.

(** The uniform order shape returned to the controller.  [size] and [left]
    are kept as numbers. *)
Record OrderResponse : Type := {
  id : string;
  contract : string;
  size : Q;
  price : string;
  status : string;
  create_time : Z;
  fill_price : string;
  left : Q
}.

(** An order as the exchange reports it; [origQty] and [executedQty] are
    the parsed numbers, a missing text field is the empty string. *)
Record RawOrder : Type := {
  orderId : Z;
  symbol : string;
  side : string;
  origQty : Q;
  executedQty : Q;
  rawPrice : string;
  avgPrice : string;
  rawStatus : string;
  time : Z;
  updateTime : Z
}.

(** One entry of [exchangeInfo.symbols]: the symbol and the [minQty] of its
    LOT_SIZE filter, when it has one. *)
Record SymbolInfo : Type := {
  infoSymbol : string;
  minQty : option Q
}.

(** JSON bodies, by the endpoint that produces them. *)
Inductive Body : Type :=
| TimeBody (serverTime : Z)
| OrderBody (o : RawOrder)
| OrdersBody (os : list RawOrder)
| ExchangeInfoBody (symbols : list SymbolInfo)
| OtherBody.

(** What one call of [fetch] does: a response with [ok], a response
    without [ok] whose JSON carries [code] and [msg], or a rejection
    (abort on timeout, or another network failure). *)
Inductive FetchOutcome : Type :=
| HttpOk (body : Body)
| HttpError (code : Z) (msg : string)
| Rejected (timeout : bool).

Inductive Error : Type :=
| ApiError (msg : string)
| FetchError (timeout : bool)
| RetriesExhausted
| NotFound (what : string)
| TypeError
| SyncDepth.

Inductive Result (A : Type) : Type :=
| Ok (a : A)
| Throw (e : Error).
Arguments Ok {A} a.
Arguments Throw {A} e.

(** Request parameters; [PSig] stands for the HMAC-SHA256 of the listed
    payload under the account secret. *)
#[local] Unset Elimination Schemes.
Inductive Param : Type :=
| PStr (s : string)
| PInt (z : Z)
| PNum (q : Q)
| PBool (b : bool)
| PSig (payload : list (string * Param)).
#[local] Set Elimination Schemes.

Definition Params : Type := list (string * Param).

Inductive Event : Type :=
| Signed (data : Params)
| Fetched (endpoint method : string) (data : Params) (timeoutMs : Z)
| SyncStarted
| Synced (offset : Z)
| Slept (ms : Z).

Record CacheEntry : Type := {
  entryContract : string;
  orderInfo : OrderResponse;
  timestamp : Z
}.

(** The order cache: a [Map] from order identifier to entry, in insertion
    order. *)
Definition Cache : Type := list (string * CacheEntry).

(** The client's mutable fields, followed by its environment: [clock k] is
    what the [k]-th call of [Date.now()] returns, [ticks] counts the calls
    made, [network] lists the outcomes of the coming [fetch] calls, and
    [log] records what was done, latest last. *)
Record World : Type := {
  timeOffset : Z;
  lastSyncTime : Z;
  syncPromise : option (Result unit);
  orderCache : Cache;
  clock : nat -> Z;
  ticks : nat;
  network : list FetchOutcome;
  log : list Event
}.

Definition set_timeOffset (v : Z) (w : World) : World :=
  {| timeOffset := v; lastSyncTime := lastSyncTime w;
     syncPromise := syncPromise w; orderCache := orderCache w;
     clock := clock w; ticks := ticks w; network := network w; log := log w |}.

Definition set_lastSyncTime (v : Z) (w : World) : World :=
  {| timeOffset := timeOffset w; lastSyncTime := v;
     syncPromise := syncPromise w; orderCache := orderCache w;
     clock := clock w; ticks := ticks w; network := network w; log := log w |}.

Definition set_syncPromise (v : option (Result unit)) (w : World) : World :=
  {| timeOffset := timeOffset w; lastSyncTime := lastSyncTime w;
     syncPromise := v; orderCache := orderCache w;
     clock := clock w; ticks := ticks w; network := network w; log := log w |}.

Definition set_orderCache (v : Cache) (w : World) : World :=
  {| timeOffset := timeOffset w; lastSyncTime := lastSyncTime w;
     syncPromise := syncPromise w; orderCache := v;
     clock := clock w; ticks := ticks w; network := network w; log := log w |}.

Definition set_ticks (v : nat) (w : World) : World :=
  {| timeOffset := timeOffset w; lastSyncTime := lastSyncTime w;
     syncPromise := syncPromise w; orderCache := orderCache w;
     clock := clock w; ticks := v; network := network w; log := log w |}.

Definition set_network (v : list FetchOutcome) (w : World) : World :=
  {| timeOffset := timeOffset w; lastSyncTime := lastSyncTime w;
     syncPromise := syncPromise w; orderCache := orderCache w;
     clock := clock w; ticks := ticks w; network := v; log := log w |}.

Definition set_log (v : list Event) (w : World) : World :=
  {| timeOffset := timeOffset w; lastSyncTime := lastSyncTime w;
     syncPromise := syncPromise w; orderCache := orderCache w;
     clock := clock w; ticks := ticks w; network := network w; log := v |}.

(** *** The monad *)

Definition M (A : Type) : Type := World -> Result A * World.

Definition ret {A : Type} (a : A) : M A := fun w => (Ok a, w).

Definition throw {A : Type} (e : Error) : M A := fun w => (Throw e, w).

Definition bind {A B : Type} (c : M A) (k : A -> M B) : M B :=
  fun w =>
    match c w with
    | (Ok a, w') => k a w'
    | (Throw e, w') => (Throw e, w')
    end.

(** [try { c } catch (e) { h e }] *)
Definition catch {A : Type} (c : M A) (h : Error -> M A) : M A :=
  fun w =>
    match c w with
    | (Ok a, w') => (Ok a, w')
    | (Throw e, w') => h e w'
    end.

Declare Scope adapter_scope.
Delimit Scope adapter_scope with adapter.
Notation "x <- c ;; k" := (bind c (fun x => k))
  (at level 100, c at next level, right associativity) : adapter_scope.
Notation "c ;; k" := (bind c (fun _ => k))
  (at level 100, right associativity) : adapter_scope.
Open Scope adapter_scope.

Definition get {A : Type} (f : World -> A) : M A := fun w => (Ok (f w), w).

Definition modify (f : World -> World) : M unit := fun w => (Ok tt, f w).

Definition emit (e : Event) : M unit :=
  modify (fun w => set_log (log w ++ [e]) w).

(** [Date.now()] *)
Definition now : M Z :=
  fun w => (Ok (clock w (ticks w)), set_ticks (S (ticks w)) w).

(** [await new Promise(resolve => setTimeout(resolve, ms))] *)
Definition sleep (ms : Z) : M unit := emit (Slept ms).

(** [await fetch(url, options)] followed by the reading of the JSON body:
    the next outcome of the network; a silent network rejects. *)
Definition fetch (endpoint method : string) (data : Params) (timeoutMs : Z)
  : M FetchOutcome :=
  emit (Fetched endpoint method data timeoutMs) ;;
  outcomes <- get network ;;
  match outcomes with
  | [] => throw (FetchError false)
  | Rejected t :: rest => modify (set_network rest) ;; throw (FetchError t)
  | outcome :: rest => modify (set_network rest) ;; ret outcome
  end.

(** [error.name === 'AbortError' || error.message?.includes('timeout') || ...] *)
Definition isTimeout (e : Error) : bool :=
  match e with
  | FetchError t => t
  | _ => false
  end.

(** *** Clock synchroniser and transport *)

(** [getServerTime], lines 184-186. *)
Definition getServerTime : M Z :=
  t <- now ;;
  offset <- get timeOffset ;;
  ret (t + offset).

(** [generateSignature], lines 191-199: the HMAC is kept symbolic, and the
    call is logged with the data it signs. *)
Definition generateSignature (data : Params) : M Param :=
  emit (Signed data) ;;
  ret (PSig data).

(** The timestamps the signer was given, in order. *)
Definition timestampOf (data : Params) : option Z :=
  match assocGet "timestamp" data with
  | Some (PInt t) => Some t
  | _ => None
  end.

Fixpoint signedTimestamps (events : list Event) : list Z :=
  match events with
  | [] => []
  | Signed data :: rest =>
    match timestampOf data with
    | Some t => t :: signedTimestamps rest
    | None => signedTimestamps rest
    end
  | _ :: rest => signedTimestamps rest
  end.

(** The timeout of an attempt, lines 207 and 328. *)
Definition timeoutOf (attempt : nat) : Z := 15000 + (Z.of_nat attempt - 1) * 5000.

(** [handleRequest], lines 204-260.  [remaining] counts the iterations
    still to run, so the current attempt is [retries - remaining + 1]; an
    iteration yields [Some body] to return and [None] to go on.  [sync] is
    [this.syncServerTime()]. *)
Fixpoint requestAttempts (sync : M unit) (endpoint : string) (data : Params)
    (retries remaining : nat) : M Body :=
  match remaining with
  | O => throw RetriesExhausted
  | S rest =>
    let attempt := (retries - rest)%nat in
    let timeoutMs := timeoutOf attempt in
    step <-
      catch
        (response <- fetch endpoint "GET" data timeoutMs ;;
         match response with
         | HttpError code msg =>
           if ((code =? CLOCK_DRIFT) && (attempt <? retries)%nat)%bool
           then sync ;; sleep 1000 ;; ret None
           else if (attempt =? retries)%nat
           then throw (ApiError msg)
           else sleep (Z.min (1000 * Z.of_nat attempt) 3000) ;; ret None
         | HttpOk body => ret (Some body)
         | Rejected t => throw (FetchError t)
         end)
        (fun error =>
           if (attempt =? retries)%nat then throw error
           else
             let delay := if isTimeout error
                          then Z.min (2000 * Z.of_nat attempt) 6000
                          else Z.min (1000 * Z.of_nat attempt) 3000 in
             sleep delay ;; ret None) ;;
    match step with
    | Some body => ret body
    | None => requestAttempts sync endpoint data retries rest
    end
  end.

Definition handleRequest (sync : M unit) (endpoint : string) (data : Params)
    (retries : nat) : M Body :=
  requestAttempts sync endpoint data retries retries.

(** [syncServerTime], lines 138-160.  The time query goes through
    [publicRequest], whose retry loop may itself resynchronise; [depth]
    bounds that nesting. *)
Fixpoint syncServerTime (depth : nat) : M unit :=
  match depth with
  | O => throw SyncDepth
  | S d =>
    emit SyncStarted ;;
    t0 <- now ;;
    response <- handleRequest (syncServerTime d) "/fapi/v1/time" [] 3 ;;
    t1 <- now ;;
    match response with
    | TimeBody serverTime =>
      let rtt := t1 - t0 in
      let estimatedServerTime := serverTime + rtt / 2 in
      let localTime := t1 in
      let rawOffset := estimatedServerTime - localTime in
      modify (set_timeOffset (rawOffset - SAFETY_MARGIN_MS)) ;;
      t2 <- now ;;
      modify (set_lastSyncTime t2) ;;
      emit (Synced (rawOffset - SAFETY_MARGIN_MS))
    | _ => throw TypeError
    end
  end.

(** [publicRequest], lines 265-275. *)
Definition publicRequest (depth : nat) (endpoint : string) (params : Params)
    (retries : nat) : M Body :=
  handleRequest (syncServerTime depth) endpoint params retries.

(** The constructor, line 76: the first synchronisation is started and
    kept in [syncPromise]; here it has settled when the constructor
    returns. *)
Definition construct (depth : nat) : M unit :=
  fun w =>
    let (r, w') := syncServerTime depth w in
    (Ok tt, set_syncPromise (Some r) w').

(** [ensureTimeSynced], lines 165-179, for one caller at a time. *)
Definition ensureTimeSynced (depth : nat) : M unit :=
  pending <- get syncPromise ;;
  match pending with
  | Some (Ok _) => modify (set_syncPromise None)
  | Some (Throw e) => throw e
  | None =>
    t <- now ;;
    last <- get lastSyncTime ;;
    let timeSinceLastSync := t - last in
    if timeSinceLastSync >? RESYNC_INTERVAL
    then syncServerTime depth
    else ret tt
  end.

(** [handleSignedRequest], lines 291-379. *)
Fixpoint signedAttempts (sync : M unit) (endpoint : string) (params : Params)
    (method : string) (retries remaining : nat) : M Body :=
  match remaining with
  | O => throw RetriesExhausted
  | S rest =>
    let attempt := (retries - rest)%nat in
    step <-
      catch
        (timestamp <- getServerTime ;;
         let data := assocSet "recvWindow" (PInt defaultRecvWindow)
                       (assocSet "timestamp" (PInt timestamp) params) in
         signature <- generateSignature data ;;
         let data := assocSet "signature" signature data in
         let timeoutMs := timeoutOf attempt in
         catch
           (response <- fetch endpoint method data timeoutMs ;;
            match response with
            | HttpError code msg =>
              if ((code =? CLOCK_DRIFT) && (attempt <? retries)%nat)%bool
              then sync ;; sleep 500 ;; ret None
              else if (attempt =? retries)%nat
              then throw (ApiError msg)
              else sleep (Z.min (1000 * Z.of_nat attempt) 3000) ;; ret None
            | HttpOk body => ret (Some body)
            | Rejected t => throw (FetchError t)
            end)
           (fun fetchError =>
              if (attempt =? retries)%nat then throw fetchError
              else sleep (Z.min (1000 * Z.of_nat attempt) 3000) ;; ret None))
        (fun error =>
           if (attempt =? retries)%nat then throw error else ret None) ;;
    match step with
    | Some body => ret body
    | None => signedAttempts sync endpoint params method retries rest
    end
  end.

Definition handleSignedRequest (depth : nat) (endpoint : string)
    (params : Params) (method : string) (retries : nat) : M Body :=
  signedAttempts (syncServerTime depth) endpoint params method retries retries.

(** [privateRequest], lines 280-286. *)
Definition privateRequest (depth : nat) (endpoint : string) (params : Params)
    (method : string) (retries : nat) : M Body :=
  ensureTimeSynced depth ;;
  handleSignedRequest depth endpoint params method retries.


(** *** Order cache *)

Definition expired (now : Z) (entry : CacheEntry) : bool :=
  now - timestamp entry >? CACHE_TTL.

(** [entries.sort((a, b) => a[1].timestamp - b[1].timestamp)]: the sort of
    an array is stable, so entries with equal timestamps keep their
    insertion order. *)
Fixpoint insertByTimestamp (e : string * CacheEntry)
    (sorted : list (string * CacheEntry)) : list (string * CacheEntry) :=
  match sorted with
  | [] => [e]
  | x :: rest =>
    if timestamp (snd e) <=? timestamp (snd x)
    then e :: x :: rest
    else x :: insertByTimestamp e rest
  end.

Definition sortByTimestamp (entries : list (string * CacheEntry))
  : list (string * CacheEntry) :=
  fold_right insertByTimestamp [] entries.

(** [cleanupCache], lines 108-133, at the reading [now] of the clock. *)
Definition cleanupCacheAt (now : Z) (cache : Cache) : Cache :=
  let keysToDelete :=
    map fst (filter (fun kv => expired now (snd kv)) cache) in
  let cache := fold_left (fun c key => assocDelete key c) keysToDelete cache in
  if (MAX_CACHE_SIZE <? length cache)%nat
  then
    let entries := cache in
    let sorted := sortByTimestamp entries in
    let toDelete := firstn (length entries - MAX_CACHE_SIZE) sorted in
    fold_left (fun c kv => assocDelete (fst kv) c) toDelete cache
  else cache.

Definition cleanupCache : M unit :=
  t <- now ;;
  modify (fun w => set_orderCache (cleanupCacheAt t (orderCache w)) w).

(** [this.orderCache.set(orderId, {contract, orderInfo, timestamp: Date.now()})] *)
Definition remember (orderId contract : string) (info : OrderResponse) : M unit :=
  t <- now ;;
  modify (fun w =>
    set_orderCache
      (assocSet orderId
         {| entryContract := contract; orderInfo := info; timestamp := t |}
         (orderCache w)) w).

(** *** Response mapping *)

(** [n.toString()] for an integer. *)
Definition intToString (z : Z) : string :=
  DecimalString.NilZero.string_of_int (Z.to_int z).

Definition lowerChar (c : ascii) : ascii :=
  let n := nat_of_ascii c in
  if ((65 <=? n) && (n <=? 90))%nat%bool then ascii_of_nat (n + 32) else c.

Fixpoint toLowerCase (s : string) : string :=
  match s with
  | EmptyString => EmptyString
  | String c s' => String (lowerChar c) (toLowerCase s')
  end.

(** [s || d] on strings. *)
Definition orDefault (s d : string) : string :=
  if String.eqb s "" then d else s.

Definition signedSize (o : RawOrder) : Q :=
  ((if String.eqb (side o) "BUY" then 1 else - (1)) * origQty o)%Q.

Definition unfilled (o : RawOrder) : Q := (origQty o - executedQty o)%Q.

(** Lines 680-689. *)
Definition openOrderOf (order : RawOrder) : OrderResponse :=
  {| id := intToString (orderId order);
     contract := symbol order;
     size := signedSize order;
     price := orDefault (rawPrice order) "0";
     status := "open";
     create_time := time order;
     fill_price := orDefault (avgPrice order) "0";
     left := unfilled order |}.

(** Lines 594-606. *)
Definition queriedOrderOf (cachedContract : string) (response : RawOrder)
  : OrderResponse :=
  {| id := intToString (orderId response);
     contract := cachedContract;
     size := signedSize response;
     price := orDefault (rawPrice response) "0";
     status :=
       if String.eqb (rawStatus response) "FILLED" then "finished"
       else if String.eqb (rawStatus response) "NEW" then "open"
       else if String.eqb (rawStatus response) "CANCELED" then "cancelled"
       else toLowerCase (rawStatus response);
     create_time := time response;
     fill_price := orDefault (avgPrice response) "0";
     left := unfilled response |}.

(** Lines 633-642. *)
Definition assumedFinished (orderId : string) (t : Z) : OrderResponse :=
  {| id := orderId;
     contract := "UNKNOWN";
     size := 0;
     price := "0";
     status := "finished";
     create_time := t;
     fill_price := "0";
     left := 0 |}.

(** *** Order methods *)

(** [getOpenOrders], lines 671-694. *)
Definition getOpenOrders (depth : nat) (contract : option string)
    (retries : nat) : M (list OrderResponse) :=
  catch
    (let params : Params :=
       match contract with
       | Some c =>
         if String.eqb c "" then []
         else [("symbol", PStr (Symbol.normalizeContract c))]
       | None => []
       end in
     orders <- privateRequest depth "/fapi/v1/openOrders" params "GET" retries ;;
     match orders with
     | OrdersBody os => ret (map openOrderOf os)
     | _ => throw TypeError
     end)
    (fun error => throw error).

(** [getOrder], lines 580-647. *)
Definition getOrder (depth : nat) (orderId : string) : M OrderResponse :=
  catch
    (cached <- get (fun w => assocGet orderId (orderCache w)) ;;
     match cached with
     | Some cached =>
       let symbol := Symbol.normalizeContract (entryContract cached) in
       catch
         (response <- privateRequest depth "/fapi/v1/order"
                        [("symbol", PStr symbol); ("orderId", PStr orderId)]
                        "GET" 2 ;;
          match response with
          | OrderBody response =>
            let orderResponse := queriedOrderOf (entryContract cached) response in
            remember orderId (entryContract cached) orderResponse ;;
            ret orderResponse
          | _ => throw TypeError
          end)
         (fun apiError => ret (orderInfo cached))
     | None =>
       openOrders <- getOpenOrders depth None 2 ;;
       match find (fun o => String.eqb (id o) orderId) openOrders with
       | Some order => ret order
       | None =>
         t <- now ;;
         ret (assumedFinished orderId t)
       end
     end)
    (fun error => throw error).

(** The part of [ContractInfo] used here. *)
Record ContractInfo : Type := {
  name : string;
  orderSizeMin : Q
}.

(** [getContractInfo], lines 710-761. *)
Definition getContractInfo (depth : nat) (contract : string) (retries : nat)
  : M ContractInfo :=
  catch
    (let symbol := Symbol.normalizeContract contract in
     response <- publicRequest depth "/fapi/v1/exchangeInfo" [] retries ;;
     match response with
     | ExchangeInfoBody symbols =>
       match find (fun s => String.eqb (infoSymbol s) symbol) symbols with
       | None => throw (NotFound contract)
       | Some symbolInfo =>
         ret {| name := infoSymbol symbolInfo;
                orderSizeMin := match minQty symbolInfo with
                                | Some q => q
                                | None => (1 # 1000)%Q
                                end |}
       end
     | _ => throw TypeError
     end)
    (fun error => throw error).

Record OrderParams : Type := {
  paramContract : string;
  paramSize : Q;
  paramPrice : option Q;
  paramTif : option string;
  paramReduceOnly : bool
}.

Definition hasPrice (params : OrderParams) : option Q :=
  match paramPrice params with
  | Some p => if Qeq_bool p 0 then None else Some p
  | None => None
  end.

(** [placeOrder], lines 504-578. *)
Definition placeOrder (depth : nat) (params : OrderParams) (retries : nat)
  : M OrderResponse :=
  catch
    (let symbol := Symbol.normalizeContract (paramContract params) in
     let orderType := match hasPrice params with
                      | Some _ => "LIMIT"
                      | None => "MARKET"
                      end in
     quantity <-
       catch
         (contractInfo <- getContractInfo depth (paramContract params) 2 ;;
          ret (Precision.placeOrderQuantity (Some (orderSizeMin contractInfo))
                 (paramSize params)))
         (fun error =>
            ret (Precision.placeOrderQuantity None (paramSize params))) ;;
     let data : Params :=
       ([("symbol", PStr symbol);
         ("side", PStr (if Qlt_le_dec 0 (paramSize params) then "BUY" else "SELL"));
         ("type", PStr orderType);
         ("quantity", PNum quantity)]
        ++ match hasPrice params with
           | Some p => [("price", PNum p);
                        ("timeInForce",
                         PStr (match paramTif params with
                               | Some tif => orDefault tif "GTC"
                               | None => "GTC"
                               end))]
           | None => []
           end
        ++ (if paramReduceOnly params then [("reduceOnly", PBool true)] else []))%list in
     response <- privateRequest depth "/fapi/v1/order" data "POST" retries ;;
     match response with
     | OrderBody response =>
       let orderResponse :=
         {| id := intToString (orderId response);
            contract := paramContract params;
            size := paramSize params;
            price := orDefault (avgPrice response)
                       (orDefault (rawPrice response) "0");
            status :=
              if String.eqb (rawStatus response) "FILLED" then "finished"
              else if String.eqb (rawStatus response) "NEW" then "open"
              else toLowerCase (rawStatus response);
            create_time := updateTime response;
            fill_price := orDefault (avgPrice response) "0";
            left := unfilled response |} in
       remember (id orderResponse) (paramContract params) orderResponse ;;
       cleanupCache ;;
       ret orderResponse
     | _ => throw TypeError
     end)
    (fun error => throw error).

(** The state a synchronisation is in when it issues its time query. *)
Definition querying (w : World) : World :=
  set_ticks (S (ticks w)) (set_log (log w ++ [SyncStarted]) w).

(** The data an attempt signs: the parameters with its timestamp and the
    receive window. *)
Definition signedData (params : Params) (timestamp : Z) : Params :=
  assocSet "recvWindow" (PInt defaultRecvWindow)
    (assocSet "timestamp" (PInt timestamp) params).

(** *** Vocabulary of the properties *)

Definition keys (c : Cache) : list string := map fst c.

Definition unexpired (now : Z) (kv : string * CacheEntry) : bool :=
  negb (expired now (snd kv)).

Definition olderOrEqual (a b : string * CacheEntry) : Prop :=
  timestamp (snd a) <= timestamp (snd b).

Definition keyIn (ks : list string) (kv : string * CacheEntry) : bool :=
  existsb (String.eqb (fst kv)) ks.

End Adapter.

(** ** Worlds used as examples *)

Module Scenarios.

Import Adapter.
Open Scope string_scope.
Open Scope Z_scope.

(** A clock that returns the listed readings and then stands still. *)
Definition readings (l : list Z) : nat -> Z := fun k => nth k l (last l 0).

Definition world (offset lastSync : Z) (cache : Cache) (clock : nat -> Z)
    (network : list FetchOutcome) : World :=
  {| timeOffset := offset; lastSyncTime := lastSync; syncPromise := None;
     orderCache := cache; clock := clock; ticks := 0; network := network;
     log := [] |}.

Definition filled (n : Z) : RawOrder :=
  {| orderId := n; symbol := "BTCUSDT"; side := "BUY"; origQty := 1;
     executedQty := 1; rawPrice := "0"; avgPrice := "50000";
     rawStatus := "FILLED"; time := 1000; updateTime := 1000 |}.

(** The time query is answered with server time 7000 between the local
    readings 5000 and 5100. *)
Definition sync_world : World :=
  world 0 0 [] (readings [5000; 5100; 5101; 9000]) [HttpOk (TimeBody 7000)].

(** A signed request is refused for clock drift, the clock is
    resynchronised, and the second attempt succeeds. *)
Definition drift_world : World :=
  world (-2000) 0 [] (readings [100000; 100050; 100150; 100150; 100700])
    [HttpError CLOCK_DRIFT "Timestamp for this request is outside of the recvWindow.";
     HttpOk (TimeBody 100200);
     HttpOk (OrderBody (filled 42))].

(** The same exchange of messages, with a local clock that was 2650 ms
    behind the server while the stored offset was 0. *)
Definition coinciding_world : World :=
  world 0 0 [] (readings [100000; 100050; 100150; 100150; 100650])
    [HttpError CLOCK_DRIFT "Timestamp for this request is outside of the recvWindow.";
     HttpOk (TimeBody 101450);
     HttpOk (OrderBody (filled 42))].

(** Caches of numbered orders: [ascending n] holds the orders "1" to "n"
    with the timestamps 1 to n, [descending n] the same orders with the
    timestamps n down to 1. *)
Definition entryAt (t : Z) : CacheEntry :=
  {| entryContract := "BTC/USDT:USDT";
     orderInfo := assumedFinished "0" t;
     timestamp := t |}.

Definition ascending (n : nat) : Cache :=
  map (fun i => (intToString (Z.of_nat i), entryAt (Z.of_nat i))) (seq 1 n).

Definition descending (n : nat) : Cache :=
  map (fun i => (intToString (Z.of_nat i), entryAt (Z.of_nat (S n - i)))) (seq 1 n).

Fixpoint distinct (l : list string) : bool :=
  match l with
  | [] => true
  | x :: l' => (negb (existsb (String.eqb x) l') && distinct l')%bool
  end.

(** An order placed at local time 0 and still cached a day and a second
    later, when the exchange cannot be reached. *)
Definition day : Z := CACHE_TTL.

Definition old_order : OrderResponse :=
  {| id := "42"; contract := "BTC/USDT:USDT"; size := 1; price := "50000";
     status := "open"; create_time := 0; fill_price := "0"; left := 1 |}.

Definition stale_world : World :=
  world 0 (day + 1000)
    [("42", {| entryContract := "BTC/USDT:USDT"; orderInfo := old_order;
               timestamp := 0 |})]
    (readings [day + 1000; day + 1001; day + 1002; day + 1003])
    [Rejected false; Rejected false].

(** The exchange lists no open order and the cache is empty. *)
Definition quiet_world : World :=
  world 0 5000 [] (readings [5000; 5001; 5002]) [HttpOk (OrdersBody [])].

(** An order is placed a day and a second after order "7" was cached and
    a second after order "8" was. *)
Definition btc_params : OrderParams :=
  {| paramContract := "BTC/USDT:USDT"; paramSize := (12345 # 10000)%Q;
     paramPrice := None; paramTif := None; paramReduceOnly := false |}.

Definition placing_world : World :=
  world 0 (day + 1000)
    [("7", entryAt 0); ("8", entryAt day)]
    (readings [day + 1000; day + 1001; day + 1002; day + 1003])
    [HttpOk (ExchangeInfoBody
               [{| infoSymbol := "BTCUSDT"; minQty := Some (1 # 1000)%Q |}]);
     HttpOk (OrderBody (filled 42))].

End Scenarios.

(** ** Concurrent callers of the clock synchroniser

    Callers of [ensureTimeSynced] run on one thread and interleave only at
    their [await]s.  The client is therefore advanced by the steps the
    event loop takes: a caller enters and runs to its first [await], the
    time query of a synchronisation is answered or fails, a suspended
    caller is resumed. *)

Module Concurrent.

Open Scope Z_scope.

(** One call of [syncServerTime]: the local time [t0] it started at and,
    once its time query is over, whether it succeeded.  Its position in the
    list of calls identifies the promise it returned. *)
Record Sync : Type := {
  t0 : Z;
  settled : option bool
}.

Inductive Caller : Type :=
| AwaitingShared (p : nat)   (* suspended at line 168, on [this.syncPromise] *)
| AwaitingOwn (p : nat)      (* suspended at line 177, on its own call *)
| Returned
| Raised.

Record Client : Type := {
  timeOffset : Z;
  lastSyncTime : Z;
  syncPromise : option nat;
  syncs : list Sync;
  callers : list Caller
}.

(** Every call of [syncServerTime] sends one time query. *)
Definition roundTrips (c : Client) : nat := length (syncs c).

Fixpoint setNth {A : Type} (n : nat) (a : A) (l : list A) : list A :=
  match l, n with
  | [], _ => []
  | _ :: l', O => a :: l'
  | x :: l', S n' => x :: setNth n' a l'
  end.

Inductive Step : Type :=
| Call (now : Z)
| Reply (p : nat) (serverTime t1 t2 : Z)
| Fail (p : nat)
| Resume (i : nat).

(** The constructor, line 76, at local time [now]. *)
Definition created (now : Z) : Client :=
  {| timeOffset := 0; lastSyncTime := 0; syncPromise := Some 0%nat;
     syncs := [{| t0 := now; settled := None |}]; callers := [] |}.

(** [ensureTimeSynced], lines 165-179, up to its first [await]. *)
Definition call (now : Z) (c : Client) : Client :=
  match syncPromise c with
  | Some p =>
    {| timeOffset := timeOffset c; lastSyncTime := lastSyncTime c;
       syncPromise := syncPromise c; syncs := syncs c;
       callers := callers c ++ [AwaitingShared p] |}
  | None =>
    let timeSinceLastSync := now - lastSyncTime c in
    if timeSinceLastSync >? Adapter.RESYNC_INTERVAL
    then
      {| timeOffset := timeOffset c; lastSyncTime := lastSyncTime c;
         syncPromise := syncPromise c;
         syncs := syncs c ++ [{| t0 := now; settled := None |}];
         callers := callers c ++ [AwaitingOwn (length (syncs c))] |}
    else
      {| timeOffset := timeOffset c; lastSyncTime := lastSyncTime c;
         syncPromise := syncPromise c; syncs := syncs c;
         callers := callers c ++ [Returned] |}
  end.

(** [syncServerTime], lines 142-153, from the answer of its time query. *)
Definition reply (p : nat) (serverTime t1 t2 : Z) (c : Client) : option Client :=
  match nth_error (syncs c) p with
  | Some {| t0 := t0; settled := None |} =>
    let rtt := t1 - t0 in
    let estimatedServerTime := serverTime + rtt / 2 in
    let rawOffset := estimatedServerTime - t1 in
    Some {| timeOffset := rawOffset - Adapter.SAFETY_MARGIN_MS;
            lastSyncTime := t2;
            syncPromise := syncPromise c;
            syncs := setNth p {| t0 := t0; settled := Some true |} (syncs c);
            callers := callers c |}
  | _ => None
  end.

(** [syncServerTime], lines 156-159: the time query failed. *)
Definition fail (p : nat) (c : Client) : option Client :=
  match nth_error (syncs c) p with
  | Some {| t0 := t0; settled := None |} =>
    Some {| timeOffset := timeOffset c; lastSyncTime := lastSyncTime c;
            syncPromise := syncPromise c;
            syncs := setNth p {| t0 := t0; settled := Some false |} (syncs c);
            callers := callers c |}
  | _ => None
  end.

Definition settledAs (c : Client) (p : nat) : option bool :=
  match nth_error (syncs c) p with
  | Some s => settled s
  | None => None
  end.

(** [ensureTimeSynced] from the [await] it was suspended at. *)
Definition resume (i : nat) (c : Client) : option Client :=
  match nth_error (callers c) i with
  | Some (AwaitingShared p) =>
    match settledAs c p with
    | Some true =>
      Some {| timeOffset := timeOffset c; lastSyncTime := lastSyncTime c;
              syncPromise := None; syncs := syncs c;
              callers := setNth i Returned (callers c) |}
    | Some false =>
      Some {| timeOffset := timeOffset c; lastSyncTime := lastSyncTime c;
              syncPromise := syncPromise c; syncs := syncs c;
              callers := setNth i Raised (callers c) |}
    | None => None
    end
  | Some (AwaitingOwn p) =>
    match settledAs c p with
    | Some true =>
      Some {| timeOffset := timeOffset c; lastSyncTime := lastSyncTime c;
              syncPromise := syncPromise c; syncs := syncs c;
              callers := setNth i Returned (callers c) |}
    | Some false =>
      Some {| timeOffset := timeOffset c; lastSyncTime := lastSyncTime c;
              syncPromise := syncPromise c; syncs := syncs c;
              callers := setNth i Raised (callers c) |}
    | None => None
    end
  | _ => None
  end.

Definition step (s : Step) (c : Client) : option Client :=
  match s with
  | Call now => Some (call now c)
  | Reply p serverTime t1 t2 => reply p serverTime t1 t2 c
  | Fail p => fail p c
  | Resume i => resume i c
  end.

(** A schedule is run step by step; a step that cannot be taken stops
    it. *)
Fixpoint run (schedule : list Step) (c : Client) : option Client :=
  match schedule with
  | [] => Some c
  | s :: rest =>
    match step s c with
    | Some c' => run rest c'
    | None => None
    end
  end.

(** A client whose first synchronisation is over and has been awaited, and
    whose last synchronisation dates from local time [last]. *)
Definition idle (offset last : Z) : Client :=
  {| timeOffset := offset; lastSyncTime := last; syncPromise := None;
     syncs := [{| t0 := last; settled := Some true |}]; callers := [] |}.

End Concurrent.

(** ** Position-size helpers

    [parsePositionSize] and [isValidPosition] of the utilities module.  A
    JavaScript number is a rational, an infinity or NaN; [parseFloat] and
    the printing of a number are modelled after the language definition,
    with exact decimal values: a value too large for a double becomes an
    infinity, one too small becomes zero, and the rounding of the values in
    between is left out. *)

Module PositionSize.

Import JsString.
Open Scope string_scope.

Inductive JsNumber : Type :=
| Finite (q : Q)
| PosInfinity
| NegInfinity
| NaN.

(** [string | number | undefined | null] *)
Inductive SizeValue : Type :=
| SizeString (s : string)
| SizeNumber (n : JsNumber)
| Undefined
| Null.

Definition negate (n : JsNumber) : JsNumber :=
  match n with
  | Finite q => Finite (- q)
  | PosInfinity => NegInfinity
  | NegInfinity => PosInfinity
  | NaN => NaN
  end.

(** The magnitude from which a decimal value rounds to an infinity,
    [2^1024 - 2^970], and the one up to which it rounds to zero,
    [2^-1075]. *)
Definition overflowFrom : Q := inject_Z (2 ^ 1024 - 2 ^ 970).
Definition underflowTo : Q := 1 # (2 ^ 1075).

Definition toDouble (q : Q) : JsNumber :=
  if Qle_bool overflowFrom (Qabs q)
  then (if Qle_bool 0 q then PosInfinity else NegInfinity)
  else if Qle_bool (Qabs q) underflowTo then Finite 0
  else Finite q.

Definition isWhiteSpace (c : ascii) : bool :=
  let n := nat_of_ascii c in
  ((9 <=? n) && (n <=? 13) || (n =? 32))%nat%bool.

Fixpoint trimStart (s : string) : string :=
  match s with
  | String c s' => if isWhiteSpace c then trimStart s' else s
  | EmptyString => EmptyString
  end.

Definition digitOf (c : ascii) : option Z :=
  let n := nat_of_ascii c in
  if ((48 <=? n) && (n <=? 57))%nat%bool then Some (Z.of_nat (n - 48)) else None.

(** The longest run of decimal digits at the start of [s]: its value
    appended to [acc], the number of digits read, and the rest. *)
Fixpoint readDigits (s : string) (acc : Z) (count : nat) : Z * nat * string :=
  match s with
  | String c s' =>
    match digitOf c with
    | Some d => readDigits s' (10 * acc + d)%Z (S count)
    | None => (acc, count, s)
    end
  | EmptyString => (acc, count, s)
  end.

(** The exponent part, [e] or [E], an optional sign and at least one digit;
    without a digit there is no exponent part. *)
Definition readExponent (s : string) : Z :=
  match s with
  | String c s' =>
    if (Ascii.eqb c "e" || Ascii.eqb c "E")%bool
    then
      match s' with
      | String "-" s'' =>
        let '(e, n, _) := readDigits s'' 0 0 in
        if (n =? 0)%nat then 0%Z else (- e)%Z
      | String "+" s'' =>
        let '(e, n, _) := readDigits s'' 0 0 in
        if (n =? 0)%nat then 0%Z else e
      | _ =>
        let '(e, n, _) := readDigits s' 0 0 in
        if (n =? 0)%nat then 0%Z else e
      end
    else 0%Z
  | EmptyString => 0%Z
  end.

(** The longest prefix of [s] that is an unsigned decimal literal:
    [Infinity], or digits with an optional fraction and exponent. *)
Definition readUnsigned (s : string) : JsNumber :=
  if startsWith "Infinity" s then PosInfinity
  else
    let '(whole, nWhole, rest) := readDigits s 0 0 in
    match rest with
    | String "." rest' =>
      let '(mantissa, nAll, rest'') := readDigits rest' whole nWhole in
      if (nAll =? 0)%nat then NaN
      else
        let nFraction := (nAll - nWhole)%nat in
        toDouble (inject_Z mantissa
                  * Precision.pow10 (readExponent rest'' - Z.of_nat nFraction))
    | _ =>
      if (nWhole =? 0)%nat then NaN
      else toDouble (inject_Z whole * Precision.pow10 (readExponent rest))
    end.

(** [Number.parseFloat(s)] *)
Definition parseFloat (s : string) : JsNumber :=
  match trimStart s with
  | String "-" s' => negate (readUnsigned s')
  | String "+" s' => readUnsigned s'
  | s' => readUnsigned s'
  end.

(** The decimal digits of [r / d] after the point, for [0 <= r < d]. *)
Fixpoint fractionDigits (fuel : nat) (r d : Z) : string :=
  match fuel with
  | O => EmptyString
  | S f =>
    if (r =? 0)%Z then EmptyString
    else String (ascii_of_nat (48 + Z.to_nat (10 * r / d)))
           (fractionDigits f ((10 * r) mod d) d)
  end.

(** [n.toString()], in plain decimal notation. *)
Definition numberToString (n : JsNumber) : string :=
  match n with
  | NaN => "NaN"
  | PosInfinity => "Infinity"
  | NegInfinity => "-Infinity"
  | Finite q =>
    let d := Zpos (Qden q) in
    let a := Z.abs (Qnum q) in
    let sign := if (Qnum q <? 0)%Z then "-" else "" in
    let whole := Adapter.intToString (a / d) in
    let fraction := fractionDigits (S (Pos.size_nat (Qden q))) (a mod d) d in
    sign ++ whole ++ (if String.eqb fraction "" then "" else "." ++ fraction)
  end.

(** [isNaN(x)] *)
Definition isNaN (n : JsNumber) : bool :=
  match n with
  | NaN => true
  | _ => false
  end.

(** [a !== b] on numbers. *)
Definition strictNotEqual (a b : JsNumber) : bool :=
  match a, b with
  | Finite p, Finite q => negb (Qeq_bool p q)
  | PosInfinity, PosInfinity => false
  | NegInfinity, NegInfinity => false
  | _, _ => true
  end.

(** [sizeValue.toString()], for a value that is neither [undefined] nor
    [null]. *)
Definition valueToString (sizeValue : SizeValue) : string :=
  match sizeValue with
  | SizeString s => s
  | SizeNumber n => numberToString n
  | Undefined | Null => ""
  end.

Definition isEmptyString (sizeValue : SizeValue) : bool :=
  match sizeValue with
  | SizeString s => String.eqb s ""
  | _ => false
  end.

(** [parsePositionSize], lines 84-91. *)
Definition parsePositionSize (sizeValue : SizeValue) : JsNumber :=
  match sizeValue with
  | Undefined | Null => Finite 0
  | _ =>
    if isEmptyString sizeValue then Finite 0
    else
      let parsed := parseFloat (valueToString sizeValue) in
      if isNaN parsed then Finite 0 else parsed
  end.

(** [isValidPosition], lines 98-100. *)
Definition isValidPosition (sizeValue : SizeValue) : bool :=
  strictNotEqual (parsePositionSize sizeValue) (Finite 0).

Definition isZero (n : JsNumber) : Prop :=
  exists q : Q, n = Finite q /\ (q == 0)%Q.

Definition isFinite (n : JsNumber) : Prop := exists q : Q, n = Finite q.

Definition absent (sizeValue : SizeValue) : Prop :=
  sizeValue = Undefined \/ sizeValue = Null \/ sizeValue = SizeString "".

End PositionSize.

(** ** Further operations of the client *)

Module Operations.

Import JsString Adapter.
Open Scope string_scope.
Open Scope Z_scope.
Open Scope adapter_scope.

(** [cancelOrder], lines 649-669; the [privateRequest] is made with its
    default of three attempts. *)
Definition cancelOrder (depth : nat) (orderId : string) : M unit :=
  catch
    (openOrders <- getOpenOrders depth None 2 ;;
     match find (fun o => String.eqb (id o) orderId) openOrders with
     | None => throw (NotFound orderId)
     | Some order =>
       let symbol := Symbol.normalizeContract (contract order) in
       privateRequest depth "/fapi/v1/order"
         [("symbol", PStr symbol); ("orderId", PStr orderId)] "DELETE" 3 ;;
       ret tt
     end)
    (fun error => throw error).






(** *** Vocabulary of the properties *)

(** The number of calls of the signer recorded in a log. *)
Fixpoint signedCount (events : list Event) : nat :=
  match events with
  | [] => 0
  | Signed _ :: rest => S (signedCount rest)
  | _ :: rest => signedCount rest
  end.


(** [w'] is a later state of [w] in which the signer has been called at
    most [n] more times: the order cache and the clock are the same, no
    reading of the clock and no outcome of the network has been given
    back, and the log has only grown. *)
Definition advances (n : nat) (w w' : World) : Prop :=
  orderCache w' = orderCache w
  /\ clock w' = clock w
  /\ (ticks w <= ticks w')%nat
  /\ (exists used, network w = (used ++ network w')%list)
  /\ (exists tail, log w' = (log w ++ tail)%list /\ (signedCount tail <= n)%nat).

Definition acts {A : Type} (n : nat) (c : M A) : Prop :=
  forall w : World, advances n w (snd (c w)).

(** The refusal of a request by the exchange with a code and a message. *)
Definition refusal (cm : Z * string) : FetchOutcome := HttpError (fst cm) (snd cm).

(** No ASCII capital letter occurs in [s]. *)
Definition isUpper (c : ascii) : bool :=
  let n := nat_of_ascii c in ((65 <=? n) && (n <=? 90))%nat%bool.

Definition lowercase (s : string) : bool := all_chars (fun c => negb (isUpper c)) s.

(** The errors an attempt of a request can end with: the exchange's
    refusal, or the failure of the fetch. *)
Definition attemptError (e : Error) : bool :=
  match e with
  | ApiError _ | FetchError _ => true
  | _ => false
  end.

End Operations.

(** ** Further worlds used as examples *)

Module OperationScenarios.

Import Adapter Scenarios.
Open Scope string_scope.
Open Scope Z_scope.


End OperationScenarios.

Module PositionScenarios.

Import Operations.
Open Scope string_scope.





End PositionScenarios.
(** ** Strings: facts used by the normaliser *)

Module JsStringFacts.

Import JsString.
Open Scope string_scope.

Lemma append_empty_r (s : string) : s ++ "" = s.
Proof. induction s as [|c s IH]; simpl; [reflexivity | now rewrite IH]. Qed.

Lemma append_assoc (a b c : string) : (a ++ b) ++ c = a ++ (b ++ c).
Proof. induction a as [|x a IH]; simpl; [reflexivity | now rewrite IH]. Qed.

Lemma startsWith_refl_append (p s : string) : startsWith p (p ++ s) = true.
Proof.
  induction p as [|a p IH]; simpl; [reflexivity|].
  now rewrite Ascii.eqb_refl, IH.
Qed.

Lemma drop_length_append (p s : string) : drop (String.length p) (p ++ s) = s.
Proof. induction p as [|a p IH]; simpl; [reflexivity | exact IH]. Qed.

Lemma lacks_append (c : ascii) (a b : string) :
  lacks c (a ++ b) = (lacks c a && lacks c b)%bool.
Proof.
  induction a as [|x a IH]; simpl; [reflexivity|].
  now rewrite IH, andb_assoc.
Qed.

Lemma all_chars_append (p : ascii -> bool) (a b : string) :
  all_chars p (a ++ b) = (all_chars p a && all_chars p b)%bool.
Proof.
  induction a as [|x a IH]; simpl; [reflexivity|].
  now rewrite IH, andb_assoc.
Qed.

(** A pattern whose first character is absent from [s] is not found. *)
Lemma replace_lacks (c : ascii) (p rep s : string) :
  lacks c s = true -> replace (String c p) rep s = s.
Proof.
  induction s as [|b s IH]; simpl; [reflexivity|].
  intros H. apply andb_prop in H as [Hcb Hs].
  apply negb_true_iff in Hcb. rewrite Hcb. simpl.
  now rewrite IH.
Qed.

Lemma replace_unfold (pat rep s : string) :
  replace pat rep s =
  if startsWith pat s then rep ++ drop (String.length pat) s
  else match s with
       | EmptyString => EmptyString
       | String c s' => String c (replace pat rep s')
       end.
Proof. destruct s; reflexivity. Qed.

(** The first occurrence is the one that follows a prefix free of the
    pattern's first character. *)
Lemma replace_first (c : ascii) (p rep a rest : string) :
  lacks c a = true ->
  replace (String c p) rep (a ++ String c p ++ rest) = a ++ rep ++ rest.
Proof.
  remember (String c p) as pat eqn:Epat.
  induction a as [|b a IH]; intros H.
  - change ("" ++ pat ++ rest) with (pat ++ rest).
    rewrite replace_unfold, startsWith_refl_append, drop_length_append.
    reflexivity.
  - simpl in H. apply andb_prop in H as [Hcb Ha].
    apply negb_true_iff in Hcb.
    change (String b a ++ pat ++ rest) with (String b (a ++ pat ++ rest)).
    rewrite replace_unfold.
    replace (startsWith pat (String b (a ++ pat ++ rest))) with false
      by (subst pat; simpl; now rewrite Hcb).
    rewrite (IH Ha). reflexivity.
Qed.

Lemma includes_append_r (p a : string) : includes p (a ++ p) = true.
Proof.
  induction a as [|b a IH].
  - simpl. destruct p; simpl.
    + reflexivity.
    + rewrite Ascii.eqb_refl.
      rewrite <- (append_empty_r p) at 2.
      now rewrite startsWith_refl_append.
  - simpl. rewrite IH. apply orb_true_r.
Qed.

Lemma includes_append_l (p a b : string) :
  includes p a = true -> includes p (a ++ b) = true.
Proof.
  assert (Hs : forall q x y, startsWith q x = true -> startsWith q (x ++ y) = true).
  { induction q as [|u q IHq]; intros x y; [now destruct x|].
    destruct x as [|v x]; simpl; [discriminate|].
    intros H. apply andb_prop in H as [-> H]. simpl. now apply IHq. }
  induction a as [|x a IH]; simpl.
  - rewrite orb_false_r. intros H. destruct p; [|discriminate].
    now destruct b.
  - intros H. apply orb_prop in H as [H|H].
    + change (String x (a ++ b)) with (String x a ++ b).
      now rewrite (Hs _ _ _ H).
    + rewrite (IH H). apply orb_true_r.
Qed.

End JsStringFacts.

(** ** Symbol normaliser: idempotence and round trip *)

Module SymbolFacts.

Import JsString JsStringFacts Symbol.
Open Scope string_scope.

Lemma normalizeContract_stages (s : string) :
  normalizeContract s = complete (strip s).
Proof. reflexivity. Qed.

Lemma alnum_lacks (c : ascii) (s : string) :
  is_alnum c = false -> all_chars is_alnum s = true -> lacks c s = true.
Proof.
  intros Hc. induction s as [|b s IH]; simpl; [reflexivity|].
  intros H. apply andb_prop in H as [Hb Hs].
  rewrite (IH Hs), andb_true_r. apply negb_true_iff.
  destruct (Ascii.eqb_spec c b) as [->|]; [congruence | reflexivity].
Qed.

Lemma ticker_alnum (s : string) : ticker s = true -> all_chars is_alnum s = true.
Proof. unfold ticker. intros H. now apply andb_prop in H as [_ H]. Qed.

Lemma endsWith_includes (p s : string) :
  endsWith p s = true -> includes p s = true.
Proof.
  induction s as [|b s IH]; simpl.
  - rewrite !orb_false_r. intros H.
    apply String.eqb_eq in H. now subst p.
  - intros H. apply orb_prop in H as [H|H].
    + apply String.eqb_eq in H. subst p.
      simpl. rewrite Ascii.eqb_refl. simpl.
      rewrite <- (append_empty_r s) at 2.
      now rewrite startsWith_refl_append.
    + rewrite (IH H). apply orb_true_r.
Qed.

Lemma complete_spec (n : string) :
  complete n = if includes "USDT" n then n else n ++ "USDT".
Proof.
  unfold complete.
  destruct (includes "USDT" n) eqn:Hi; simpl.
  - now rewrite andb_false_r.
  - destruct (endsWith "USDT" n) eqn:He; [|reflexivity].
    apply endsWith_includes in He. congruence.
Qed.

Lemma strip_alnum (s : string) : all_chars is_alnum s = true -> strip s = s.
Proof.
  intros H. unfold strip.
  rewrite (@replace_lacks "_"%char "" "" s) by now apply alnum_lacks.
  rewrite (@replace_lacks "/"%char "" "" s) by now apply alnum_lacks.
  now rewrite (@replace_lacks ":"%char "USDT" "" s) by now apply alnum_lacks.
Qed.

(** On a run of letters and digits only the completion stage acts. *)
Lemma normalizeContract_alnum (s : string) :
  all_chars is_alnum s = true ->
  normalizeContract s = if includes "USDT" s then s else s ++ "USDT".
Proof.
  intros H. now rewrite normalizeContract_stages, strip_alnum, complete_spec.
Qed.

Lemma normalizeContract_fixed (s : string) :
  all_chars is_alnum s = true -> includes "USDT" s = true ->
  normalizeContract s = s.
Proof. intros Ha Hi. now rewrite normalizeContract_alnum, Hi. Qed.

Lemma core_alnum (f : Format) :
  well_formed f = true -> all_chars is_alnum (core f) = true.
Proof.
  destruct f as [b|b q|b q|b q|b]; simpl; intros H;
    try (apply andb_prop in H as [Hb Hq]; apply ticker_alnum in Hb, Hq;
         now rewrite all_chars_append, Hb, Hq);
    apply ticker_alnum in H; [assumption|].
  now rewrite all_chars_append, H.
Qed.

Ltac lacks_tac :=
  rewrite ?lacks_append;
  repeat (apply andb_true_intro; split);
  solve [reflexivity | apply alnum_lacks; [reflexivity | assumption]].

Lemma strip_render (f : Format) :
  well_formed f = true -> strip (render f) = core f.
Proof.
  intros Hwf. pose proof (core_alnum f Hwf) as Hcore.
  destruct f as [b|b q|b q|b q|b]; cbn [render core well_formed] in *;
    try (apply strip_alnum; assumption);
    rewrite all_chars_append in Hcore;
    apply andb_prop in Hcore as [Hb Hq]; unfold strip.
  - (* b/q *)
    rewrite (@replace_lacks "_"%char "" "" (b ++ "/" ++ q)) by lacks_tac.
    rewrite (@replace_first "/"%char "" "" b q) by lacks_tac.
    simpl. apply replace_lacks. lacks_tac.
  - (* b/q:USDT *)
    rewrite (@replace_lacks "_"%char "" "" (b ++ "/" ++ q ++ ":USDT")) by lacks_tac.
    rewrite (@replace_first "/"%char "" "" b (q ++ ":USDT")) by lacks_tac.
    simpl. rewrite <- append_assoc.
    assert (Hl : lacks ":" (b ++ q) = true) by lacks_tac.
    pose proof (@replace_first ":"%char "USDT" "" (b ++ q) "" Hl) as E.
    simpl in E. rewrite E. apply append_empty_r.
  - (* b_q *)
    rewrite (@replace_first "_"%char "" "" b q) by lacks_tac.
    simpl.
    rewrite (@replace_lacks "/"%char "" "" (b ++ q)) by lacks_tac.
    apply replace_lacks. lacks_tac.
Qed.

Lemma normalizeContract_render (f : Format) :
  well_formed f = true ->
  normalizeContract (render f) =
  if includes "USDT" (core f) then core f else core f ++ "USDT".
Proof.
  intros H. now rewrite normalizeContract_stages, strip_render, complete_spec.
Qed.

(** C6.  Normalising twice is normalising once, for every accepted input
    format (bare base asset, slash pair, settlement-suffixed pair,
    underscore pair, canonical form); and "BTC", "BTC/USDT" and "BTC_USDT"
    normalise to one and the same canonical symbol. *)
Theorem normalizeContract_idempotent (f : Format) :
  well_formed f = true ->
  normalizeContract (normalizeContract (render f)) = normalizeContract (render f)
  /\ normalizeContract "BTC" = normalizeContract "BTC/USDT"
  /\ normalizeContract "BTC/USDT" = normalizeContract "BTC_USDT".
Proof.
  intros Hwf. split; [|split; reflexivity].
  rewrite (normalizeContract_render f Hwf).
  pose proof (core_alnum f Hwf) as Ha.
  destruct (includes "USDT" (core f)) eqn:Hi.
  - now apply normalizeContract_fixed.
  - apply normalizeContract_fixed.
    + now rewrite all_chars_append, Ha.
    + apply includes_append_r.
Qed.

Lemma normalizeContract_idempotent_witness :
  normalizeContract (normalizeContract "BTC/USDT:USDT") = normalizeContract "BTC/USDT:USDT"
  /\ normalizeContract "BTC" = normalizeContract "BTC/USDT"
  /\ normalizeContract "BTC/USDT" = normalizeContract "BTC_USDT".
Proof.
  apply (@normalizeContract_idempotent (Settled "BTC" "USDT")). reflexivity.
Defined.

(** The literal "USDT" cannot straddle the end of a base and the start of
    the appended quote. *)
Lemma startsWith_USDT_append (b : string) :
  b <> "" -> startsWith "USDT" b = false ->
  startsWith "USDT" (b ++ "USDT") = false.
Proof.
  intros Hne H.
  destruct b as [|c1 [|c2 [|c3 [|c4 b]]]]; [congruence| | | |exact H];
    cbn [startsWith append] in *.
  - destruct (Ascii.eqb "U" c1); reflexivity.
  - destruct (Ascii.eqb "U" c1), (Ascii.eqb "S" c2); reflexivity.
  - destruct (Ascii.eqb "U" c1), (Ascii.eqb "S" c2), (Ascii.eqb "D" c3); reflexivity.
Qed.

Lemma replace_USDT_suffix (b : string) :
  includes "USDT" b = false -> replace "USDT" "" (b ++ "USDT") = b.
Proof.
  induction b as [|c b IH]; intros H; [reflexivity|].
  assert (Hs : startsWith "USDT" (String c b) = false /\ includes "USDT" b = false).
  { simpl in H. apply orb_false_elim in H. exact H. }
  destruct Hs as [Hs Hb].
  rewrite replace_unfold, startsWith_USDT_append by (congruence || assumption).
  simpl. now rewrite (IH Hb).
Qed.

(** With a base that does not itself contain "USDT", every USDT-quoted
    format has the canonical symbol [base ++ "USDT"]. *)
Lemma normalizeContract_usdt (base : string) (f : Format) :
  ticker base = true -> includes "USDT" base = false ->
  In f (usdt_formats base) ->
  normalizeContract (render f) = base ++ "USDT".
Proof.
  intros Ht Hi Hin.
  assert (Hwf : well_formed f = true).
  { simpl in Hin. decompose [or] Hin; subst; simpl; try rewrite Ht; tauto. }
  rewrite (normalizeContract_render f Hwf).
  simpl in Hin. decompose [or] Hin; subst; simpl core; try tauto;
    try now rewrite includes_append_r.
  now rewrite Hi.
Qed.

(** C9, as amended.  For a base asset that is a ticker not containing the
    text "USDT", and every USDT-quoted input format of it, [extractSymbol]
    returns the base and normalising the extracted base gives the same
    canonical symbol as normalising the input. *)
Theorem extractSymbol_roundtrip (base : string) (f : Format) :
  ticker base = true -> includes "USDT" base = false ->
  In f (usdt_formats base) ->
  extractSymbol (render f) = base
  /\ normalizeContract (extractSymbol (render f)) = normalizeContract (render f).
Proof.
  intros Ht Hi Hin.
  assert (He : extractSymbol (render f) = base).
  { unfold extractSymbol. cbv zeta.
    rewrite (normalizeContract_usdt base f Ht Hi Hin).
    now apply replace_USDT_suffix. }
  split; [exact He|].
  rewrite He, (normalizeContract_usdt base f Ht Hi Hin).
  rewrite normalizeContract_alnum by now apply ticker_alnum.
  now rewrite Hi.
Qed.

Lemma extractSymbol_roundtrip_witness :
  extractSymbol "BTC/USDT:USDT" = "BTC"
  /\ normalizeContract (extractSymbol "BTC/USDT:USDT") = normalizeContract "BTC/USDT:USDT".
Proof.
  apply (@extractSymbol_roundtrip "BTC" (Settled "BTC" "USDT"));
    [reflexivity | reflexivity | simpl; tauto].
Defined.

(** C9, as stated, fails when the base asset itself contains "USDT":
    [extractSymbol] removes the first occurrence, which is then inside the
    base. *)
Lemma base_containing_quote_not_restored :
  well_formed (SlashPair "USDTX" "USDT") = true
  /\ In (SlashPair "USDTX" "USDT") (usdt_formats "USDTX")
  /\ normalizeContract "USDTX/USDT" = "USDTXUSDT"
  /\ extractSymbol "USDTX/USDT" = "XUSDT"
  /\ normalizeContract (extractSymbol (render (SlashPair "USDTX" "USDT")))
     <> normalizeContract (render (SlashPair "USDTX" "USDT")).
Proof.
  repeat split; try reflexivity; [simpl; tauto | discriminate].
Qed.

End SymbolFacts.

(** ** Precision normaliser: flooring to the step's decimal places *)

Module PrecisionFacts.

Import Precision.
Open Scope Q_scope.

Lemma Qle_bool_false (a b : Q) : Qle_bool a b = false -> b < a.
Proof.
  intros H. apply Qnot_le_lt. intros Hle.
  apply Qle_bool_iff in Hle. congruence.
Qed.

Lemma pow10_pos (d : Z) : 0 < pow10 d.
Proof. apply Qpower_0_lt. reflexivity. Qed.

Lemma pow10_succ (d : Z) : pow10 (d + 1) == pow10 d * 10.
Proof. unfold pow10. rewrite Qpower_plus by discriminate. reflexivity. Qed.

Lemma pow10_pred (d : Z) : pow10 (d - 1) == pow10 d * (1 # 10).
Proof.
  unfold pow10. unfold Z.sub. rewrite Qpower_plus by discriminate. reflexivity.
Qed.

Lemma magnitude_up_spec (fuel : nat) :
  forall x : Q, 1 <= x -> x < pow10 (Z.of_nat fuel) ->
  (0 <= magnitude_up fuel x)%Z
  /\ pow10 (magnitude_up fuel x) <= x < pow10 (magnitude_up fuel x + 1).
Proof.
  induction fuel as [|f IH]; intros x H1 Hlt.
  - exfalso. change (pow10 (Z.of_nat 0)) with 1 in Hlt.
    apply (Qlt_irrefl x). eapply Qlt_le_trans; eassumption.
  - cbn [magnitude_up]. destruct (Qle_bool 10 x) eqn:E.
    + apply Qle_bool_iff in E.
      assert (H1' : 1 <= x * (1 # 10)) by lra.
      assert (Hlt' : x * (1 # 10) < pow10 (Z.of_nat f)).
      { rewrite Nat2Z.inj_succ in Hlt. unfold Z.succ in Hlt.
        rewrite pow10_succ in Hlt. lra. }
      destruct (IH _ H1' Hlt') as (H0 & Hlo & Hhi).
      set (e := magnitude_up f (x * (1 # 10))) in *.
      split; [lia|].
      replace (1 + e)%Z with (e + 1)%Z by lia.
      rewrite (pow10_succ (e + 1)). rewrite (pow10_succ e) in *.
      split; lra.
    + apply Qle_bool_false in E.
      split; [lia|]. change (pow10 0) with 1. change (pow10 (0 + 1)) with 10.
      split; [assumption|assumption].
Qed.

Lemma magnitude_down_spec (fuel : nat) :
  forall x : Q, pow10 (- (Z.of_nat fuel + 1)) <= x -> x < 1 ->
  (magnitude_down fuel x < 0)%Z
  /\ pow10 (magnitude_down fuel x) <= x < pow10 (magnitude_down fuel x + 1).
Proof.
  induction fuel as [|f IH]; intros x Hlo Hlt.
  - simpl. split; [lia|]. change (pow10 (-1 + 1)) with 1.
    split; assumption.
  - cbn [magnitude_down]. destruct (Qle_bool 1 (x * 10)) eqn:E.
    + apply Qle_bool_iff in E. split; [lia|].
      change (pow10 (-1 + 1)) with 1. change (pow10 (-1)) with (1 # 10).
      split; lra.
    + apply Qle_bool_false in E.
      assert (Hlo' : pow10 (- (Z.of_nat f + 1)) <= x * 10).
      { replace (- (Z.of_nat (S f) + 1))%Z with (- (Z.of_nat f + 1) - 1)%Z in Hlo by lia.
        rewrite pow10_pred in Hlo. lra. }
      destruct (IH _ Hlo' E) as (Hneg & Hl & Hh).
      set (e := magnitude_down f (x * 10)) in *.
      split; [lia|].
      replace (-1 + e + 1)%Z with e by lia.
      replace (-1 + e)%Z with (e - 1)%Z by lia.
      rewrite pow10_pred. rewrite pow10_succ in Hh.
      split; lra.
Qed.


Lemma Z_lt_pow10_log2 (n : Z) : (0 < n)%Z -> (n < 10 ^ (Z.log2 n + 1))%Z.
Proof.
  intros Hn.
  pose proof (Z.log2_spec n Hn) as [_ Hhi].
  pose proof (Z.log2_nonneg n) as Hk.
  assert (2 ^ Z.succ (Z.log2 n) <= 10 ^ Z.succ (Z.log2 n))%Z
    by (apply Z.pow_le_mono_l; lia).
  unfold Z.succ in *. lia.
Qed.

Lemma pow10_inject (k : Z) : (0 <= k)%Z -> pow10 k == inject_Z (10 ^ k).
Proof. intros Hk. unfold pow10. now rewrite Zpower_Qpower. Qed.

Lemma pow10_opp (k : Z) : pow10 (- k) * pow10 k == 1.
Proof.
  unfold pow10. rewrite Qpower_opp. rewrite Qmult_comm.
  apply Qmult_inv_r. apply Qpower_not_0. discriminate.
Qed.

Lemma Qnum_pos (x : Q) : 0 < x -> (0 < Qnum x)%Z.
Proof. destruct x as [n d]. unfold Qlt. simpl. lia. Qed.

Lemma Qle_inject_num (x : Q) : 0 < x -> x <= inject_Z (Qnum x).
Proof.
  intros Hx. pose proof (Qnum_pos x Hx) as Hn.
  destruct x as [n d]. unfold Qle. simpl in *. nia.
Qed.

Lemma Qmult_den_ge_1 (x : Q) : 0 < x -> 1 <= x * inject_Z (Zpos (Qden x)).
Proof.
  intros Hx. pose proof (Qnum_pos x Hx) as Hn.
  destruct x as [n d]. unfold Qle, Qmult, inject_Z. simpl in *. nia.
Qed.

(** [floor_log10] is the floor of the decimal logarithm. *)
Lemma floor_log10_spec (x : Q) :
  0 < x -> pow10 (floor_log10 x) <= x < pow10 (floor_log10 x + 1).
Proof.
  intros Hx. unfold floor_log10.
  destruct (Qle_bool 1 x) eqn:E.
  - apply Qle_bool_iff in E.
    apply magnitude_up_spec; [assumption|].
    pose proof (Qnum_pos x Hx) as Hn.
    pose proof (Z.log2_nonneg (Qnum x)) as Hk.
    rewrite Nat2Z.inj_succ, Z2Nat.id by assumption.
    unfold Z.succ. rewrite pow10_inject by lia.
    eapply Qle_lt_trans; [apply Qle_inject_num; assumption|].
    rewrite <- Zlt_Qlt. now apply Z_lt_pow10_log2.
  - apply Qle_bool_false in E.
    apply magnitude_down_spec; [|assumption].
    pose proof (Z.log2_nonneg (Zpos (Qden x))) as Hk.
    rewrite Z2Nat.id by assumption.
    set (k := (Z.log2 (Zpos (Qden x)) + 1)%Z).
    pose proof (pow10_opp k) as Hinv.
    pose proof (pow10_pos k) as Hpk.
    pose proof (pow10_pos (- k)) as Hpnk.
    pose proof (Qmult_den_ge_1 x Hx) as Hd.
    assert (HD : inject_Z (Zpos (Qden x)) <= pow10 k).
    { unfold k. rewrite pow10_inject by lia. rewrite <- Zle_Qle.
      apply Z.lt_le_incl. now apply Z_lt_pow10_log2. }
    nra.
Qed.

Lemma floor_log10_neg (x : Q) : x < 1 -> (floor_log10 x < 0)%Z.
Proof.
  intros Hx. unfold floor_log10.
  destruct (Qle_bool 1 x) eqn:E.
  - apply Qle_bool_iff in E. lra.
  - generalize (Z.to_nat (Z.log2 (Z.pos (Qden x)))). intros f. revert x Hx E.
    induction f as [|f IH]; intros x Hx E; cbn [magnitude_down]; [lia|].
    destruct (Qle_bool 1 (x * 10)) eqn:E'; [lia|].
    assert (x * 10 < 1) by now apply Qle_bool_false.
    specialize (IH (x * 10) H E'). lia.
Qed.

Lemma decimalPlaces_spec (s : Q) :
  decimalPlaces s = if Qle_bool 1 s then 0%Z else (- floor_log10 s)%Z.
Proof.
  unfold decimalPlaces. destruct (Qle_bool 1 s) eqn:E; [reflexivity|].
  apply Qle_bool_false in E. pose proof (floor_log10_neg s E). lia.
Qed.

Lemma decimalPlaces_nonneg (s : Q) : (0 <= decimalPlaces s)%Z.
Proof. unfold decimalPlaces. destruct (Qle_bool 1 s); lia. Qed.





(** The floored value is an integer number of units [1 / m]. *)
Lemma floorTo_units (m x : Q) :
  0 < m -> floorTo m x == inject_Z (Qfloor (x * m)) * / m.
Proof. intros Hm. reflexivity. Qed.








Example decimalPlaces_examples :
  decimalPlaces (1 # 1000) = 3%Z /\ decimalPlaces (1 # 100) = 2%Z
  /\ decimalPlaces (1 # 10) = 1%Z /\ decimalPlaces 1 = 0%Z
  /\ decimalPlaces (5 # 1000) = 3%Z /\ decimalPlaces 5 = 0%Z.
Proof. repeat split; reflexivity. Qed.

Example orderQuantity_example :
  orderQuantity (1 # 100) ((95681 # 100) + (1 # 100000)) == (95681 # 100).
Proof. reflexivity. Qed.




Example calculatePnl_examples :
  calculatePnl 100 110 2 long == 20 /\ calculatePnl 100 110 2 short == - (20).
Proof. split; reflexivity. Qed.

End PrecisionFacts.

(** ** Clock synchroniser and signed retries *)

Module ClockFacts.

Import Adapter Scenarios.
Open Scope string_scope.
Open Scope Z_scope.

Example sync_world_offset :
  let (r, w) := syncServerTime 1 sync_world in
  r = Ok tt /\ timeOffset w = 7000 + (5100 - 5000) / 2 - 5100 - 2000
  /\ lastSyncTime w = 5101
  /\ fst (getServerTime w) = Ok (9000 + -50)
  /\ log w = [SyncStarted; Fetched "/fapi/v1/time" "GET" [] 15000; Synced (-50)].
Proof. vm_compute. repeat split; reflexivity. Qed.

Example drift_world_run :
  let (r, w) := handleSignedRequest 1 "/fapi/v1/order" [] "GET" 2 drift_world in
  r = Ok (OrderBody (filled 42))
  /\ signedTimestamps (log w) = [98000; 98800]
  /\ timeOffset w = -1900.
Proof. vm_compute. repeat split; reflexivity. Qed.


Lemma syncServerTime_unfold (depth : nat) (w : World) :
  syncServerTime (S depth) w =
  match publicRequest depth "/fapi/v1/time" [] 3 (querying w) with
  | (Ok (TimeBody serverTime), w1) =>
    let t0 := clock w (ticks w) in
    let t1 := clock w1 (ticks w1) in
    let offset := serverTime + (t1 - t0) / 2 - t1 - SAFETY_MARGIN_MS in
    (Ok tt,
     set_log (log w1 ++ [Synced offset])
       (set_lastSyncTime (clock w1 (S (ticks w1)))
          (set_ticks (S (S (ticks w1))) (set_timeOffset offset w1))))
  | (Ok _, w1) => (Throw TypeError, set_ticks (S (ticks w1)) w1)
  | (Throw e, w1) => (Throw e, w1)
  end.
Proof.
  unfold publicRequest, querying.
  cbn [syncServerTime].
  unfold bind at 1. unfold emit at 1, modify at 1.
  unfold bind at 1. unfold now at 1.
  unfold bind at 1.
  destruct w as [off last sp cache clk n net lg]; cbn [ticks log set_log set_ticks clock
    timeOffset lastSyncTime syncPromise orderCache network].
  match goal with |- context [handleRequest ?s ?e ?d ?r ?w] =>
    destruct (handleRequest s e d r w) as [[[t| | | |]|e'] w1] end;
    try reflexivity.
Qed.


Lemma getServerTime_run (w : World) :
  getServerTime w = (Ok (clock w (ticks w) + timeOffset w), set_ticks (S (ticks w)) w).
Proof. destruct w; reflexivity. Qed.

(** C5.  A synchronisation records the local time [T0], receives the server
    time [S] from its time query, and records the local time [T1]; with
    [rtt = T1 - T0] (and [rtt / 2] the integer half, as [Math.floor(rtt / 2)]
    computes it) it succeeds and stores the offset
    [(S + rtt / 2 - T1) - SAFETY_MARGIN_MS], and as long as that offset is
    the stored one, [getServerTime] returns the local time plus it. *)
Theorem syncServerTime_offset (depth : nat) (w w1 : World) (S : Z) :
  publicRequest depth "/fapi/v1/time" [] 3 (querying w) = (Ok (TimeBody S), w1) ->
  let T0 := clock w (ticks w) in
  let T1 := clock w1 (ticks w1) in
  let rtt := T1 - T0 in
  let offset := (S + rtt / 2 - T1) - SAFETY_MARGIN_MS in
  exists w' : World,
    syncServerTime (Datatypes.S depth) w = (Ok tt, w')
    /\ timeOffset w' = offset
    /\ fst (getServerTime w') = Ok (clock w' (ticks w') + offset)
    /\ forall later : World,
         timeOffset later = timeOffset w' ->
         fst (getServerTime later) = Ok (clock later (ticks later) + offset).
Proof.
  intros Hquery T0 T1 rtt offset.
  rewrite syncServerTime_unfold, Hquery. cbv zeta.
  fold T0 T1 rtt offset.
  eexists. split; [reflexivity|].
  split; [reflexivity|].
  split; [now rewrite getServerTime_run|].
  intros later Hlater. rewrite getServerTime_run. cbn [fst].
  rewrite Hlater. reflexivity.
Qed.

Lemma syncServerTime_offset_witness :
  exists w' : World,
    syncServerTime 1 sync_world = (Ok tt, w')
    /\ timeOffset w' = (7000 + (5100 - 5000) / 2 - 5100) - SAFETY_MARGIN_MS
    /\ fst (getServerTime w') = Ok (9000 + -50).
Proof.
  edestruct (syncServerTime_offset 0 sync_world) as (w' & Hrun & Hoff & Hnow & _).
  - vm_compute. reflexivity.
  - exists w'. split; [exact Hrun|]. split; [exact Hoff|].
    assert (Hw : w' = snd (syncServerTime 1 sync_world)) by now rewrite Hrun.
    rewrite Hnow, Hw. vm_compute. reflexivity.
Defined.


(** Symbolic execution of the monadic code on an explicit world. *)
Ltac exec :=
  cbv beta iota zeta delta
    [handleSignedRequest signedAttempts handleRequest requestAttempts
     publicRequest privateRequest ensureTimeSynced
     getServerTime generateSignature fetch sleep emit now get modify
     bind catch ret throw isTimeout
     set_timeOffset set_lastSyncTime set_syncPromise set_orderCache
     set_ticks set_network set_log
     timeOffset lastSyncTime syncPromise orderCache clock ticks network log
     CLOCK_DRIFT Z.eqb Pos.eqb andb Nat.ltb Nat.leb Nat.eqb fst snd].

Lemma assocGet_assocSet_same {V : Type} (k : string) (v : V) (m : list (string * V)) :
  assocGet k (assocSet k v m) = Some v.
Proof.
  induction m as [|[k' v'] m IH]; simpl.
  - now rewrite String.eqb_refl.
  - destruct (String.eqb k k') eqn:E; simpl.
    + now rewrite String.eqb_refl.
    + now rewrite E.
Qed.

Lemma assocGet_assocSet_other {V : Type} (k k2 : string) (v : V) (m : list (string * V)) :
  String.eqb k k2 = false ->
  assocGet k (assocSet k2 v m) = assocGet k m.
Proof.
  intros Hk. induction m as [|[k' v'] m IH]; simpl.
  - now rewrite Hk.
  - destruct (String.eqb k2 k') eqn:E; simpl.
    + apply String.eqb_eq in E. subst k'. now rewrite Hk.
    + now rewrite IH.
Qed.

Lemma timestampOf_signedData (params : Params) (t : Z) :
  timestampOf (signedData params t) = Some t.
Proof.
  unfold timestampOf, signedData.
  rewrite assocGet_assocSet_other by reflexivity.
  now rewrite assocGet_assocSet_same.
Qed.

Lemma signedTimestamps_app (a b : list Event) :
  signedTimestamps (a ++ b) = (signedTimestamps a ++ signedTimestamps b)%list.
Proof.
  induction a as [|e a IH]; [reflexivity|].
  destruct e; simpl; try exact IH.
  destruct (timestampOf data); simpl; now rewrite IH.
Qed.

(** C2, as amended.  When the first attempt of a signed request is refused
    with the clock-drift code, the time query of the resynchronisation is
    answered, and the second attempt succeeds, the call returns the body of
    the second attempt and has done, in this order: sign and send with
    timestamp [ts1], the current clock reading plus the offset in force;
    resynchronise; pause 500 ms; sign and send with timestamp [ts2], a new
    clock reading plus the offset just stored.  Each attempt computes its
    timestamp and signature anew; the two timestamps differ exactly when
    the clock has not advanced by the amount the offset went down. *)
Theorem signed_retry_after_clock_drift
    (depth retries : nat) (endpoint method msg : string) (params : Params)
    (w : World) (S : Z) (body : Body) (rest : list FetchOutcome) :
  (2 <= retries)%nat ->
  network w = HttpError CLOCK_DRIFT msg :: HttpOk (TimeBody S) :: HttpOk body :: rest ->
  let n := ticks w in
  let ts1 := clock w n + timeOffset w in
  let T0 := clock w (n + 1) in
  let T1 := clock w (n + 2) in
  let offset := (S + (T1 - T0) / 2 - T1) - SAFETY_MARGIN_MS in
  let ts2 := clock w (n + 4) + offset in
  let data1 := signedData params ts1 in
  let data2 := signedData params ts2 in
  exists w' : World,
    handleSignedRequest (Datatypes.S depth) endpoint params method retries w
    = (Ok body, w')
    /\ log w' =
       (log w ++
        [Signed data1;
         Fetched endpoint method (assocSet "signature" (PSig data1) data1) (timeoutOf 1);
         SyncStarted;
         Fetched "/fapi/v1/time" "GET" [] (timeoutOf 1);
         Synced offset;
         Slept 500;
         Signed data2;
         Fetched endpoint method (assocSet "signature" (PSig data2) data2) (timeoutOf 2)])%list
    /\ signedTimestamps (log w') = (signedTimestamps (log w) ++ [ts1; ts2])%list
    /\ timeOffset w' = offset
    /\ network w' = rest
    /\ (ts1 <> ts2 <-> clock w (n + 4) - clock w n <> timeOffset w - offset).
Proof.
  intros Hretries Hnet n ts1 T0 T1 offset ts2 data1 data2.
  destruct retries as [|[|r]]; try lia.
  destruct w as [off last sp cache clk k net lg].
  cbn [network ticks clock timeOffset log] in *. subst net.
  assert (Hrun :
    handleSignedRequest (Datatypes.S depth) endpoint params method
      (Datatypes.S (Datatypes.S r))
      {| timeOffset := off; lastSyncTime := last; syncPromise := sp;
         orderCache := cache; clock := clk; ticks := k;
         network := HttpError CLOCK_DRIFT msg :: HttpOk (TimeBody S)
                      :: HttpOk body :: rest;
         log := lg |}
    = (Ok body,
       {| timeOffset := offset; lastSyncTime := clk (k + 3)%nat; syncPromise := sp;
          orderCache := cache; clock := clk; ticks := (k + 5)%nat;
          network := rest;
          log := (lg ++
            [Signed data1;
             Fetched endpoint method (assocSet "signature" (PSig data1) data1) (timeoutOf 1);
             SyncStarted;
             Fetched "/fapi/v1/time" "GET" [] (timeoutOf 1);
             Synced offset;
             Slept 500;
             Signed data2;
             Fetched endpoint method (assocSet "signature" (PSig data2) data2) (timeoutOf 2)])%list |})).
  { unfold handleSignedRequest. cbn [signedAttempts].
    replace (Datatypes.S (Datatypes.S r) - Datatypes.S r)%nat with 1%nat by lia.
    replace (Datatypes.S (Datatypes.S r) - r)%nat with 2%nat by lia.
    exec. rewrite syncServerTime_unfold. unfold querying. exec.
    subst data1 data2 ts2 offset T1 T0 ts1 n. unfold signedData.
    replace (k + 1)%nat with (Datatypes.S k) by lia.
    replace (k + 2)%nat with (Datatypes.S (Datatypes.S k)) by lia.
    replace (k + 3)%nat with (Datatypes.S (Datatypes.S (Datatypes.S k))) by lia.
    replace (k + 4)%nat
      with (Datatypes.S (Datatypes.S (Datatypes.S (Datatypes.S k)))) by lia.
    replace (k + 5)%nat
      with (Datatypes.S (Datatypes.S (Datatypes.S (Datatypes.S (Datatypes.S k))))) by lia.
    rewrite <- !app_assoc. reflexivity. }
  eexists. split; [exact Hrun|]. cbn [log timeOffset network].
  split; [reflexivity|].
  split.
  { rewrite signedTimestamps_app. f_equal.
    cbn [signedTimestamps]. unfold data1, data2.
    now rewrite !timestampOf_signedData. }
  split; [reflexivity|]. split; [reflexivity|].
  unfold ts2, ts1, n. split; intros H; lia.
Qed.

(** The same holds of a retry that follows a network failure: nothing is
    resynchronised, and the second attempt signs a new reading of the
    clock. *)
Lemma signed_retry_after_network_failure
    (depth retries : nat) (endpoint method : string) (params : Params)
    (w : World) (timeout : bool) (body : Body) (rest : list FetchOutcome) :
  (2 <= retries)%nat ->
  network w = Rejected timeout :: HttpOk body :: rest ->
  let ts1 := clock w (ticks w) + timeOffset w in
  let ts2 := clock w (ticks w + 1) + timeOffset w in
  exists w' : World,
    handleSignedRequest depth endpoint params method retries w = (Ok body, w')
    /\ signedTimestamps (log w') = (signedTimestamps (log w) ++ [ts1; ts2])%list
    /\ timeOffset w' = timeOffset w.
Proof.
  intros Hretries Hnet ts1 ts2.
  destruct retries as [|[|r]]; try lia.
  destruct w as [off last sp cache clk k net lg].
  cbn [network ticks clock timeOffset log] in *. subst net.
  unfold handleSignedRequest. cbn [signedAttempts].
  replace (Datatypes.S (Datatypes.S r) - Datatypes.S r)%nat with 1%nat by lia.
  replace (Datatypes.S (Datatypes.S r) - r)%nat with 2%nat by lia.
  exec. eexists. split; [reflexivity|]. cbn [log timeOffset].
  split; [|reflexivity].
  rewrite <- !app_assoc, signedTimestamps_app. f_equal.
  cbn [app signedTimestamps].
  fold (signedData params (clk k + off)).
  fold (signedData params (clk (Datatypes.S k) + off)).
  rewrite !timestampOf_signedData.
  subst ts1 ts2. now replace (k + 1)%nat with (Datatypes.S k) by lia.
Qed.

Lemma signed_retry_after_clock_drift_witness :
  exists w' : World,
    handleSignedRequest 1 "/fapi/v1/order" [] "GET" 2 drift_world
    = (Ok (OrderBody (filled 42)), w')
    /\ signedTimestamps (log w') = [98000; 98800]
    /\ timeOffset w' = -1900.
Proof.
  edestruct (signed_retry_after_clock_drift 0 2 "/fapi/v1/order" "GET"
               "Timestamp for this request is outside of the recvWindow."
               [] drift_world 100200 (OrderBody (filled 42)) [])
    as (w' & Hrun & _ & Hsigned & Hoffset & _).
  - lia.
  - reflexivity.
  - exists w'. split; [exact Hrun|]. split; [exact Hsigned | exact Hoffset].
Defined.

(** C2, as stated, fails: the two attempts can be signed with one and the
    same timestamp.  Here the stored offset is 0, the first attempt is
    signed at local time 100000, the resynchronisation stores the offset
    -650, and the second attempt starts at local time 100650. *)
Lemma signed_retry_same_timestamp :
  fst (handleSignedRequest 1 "/fapi/v1/order" [] "GET" 2 coinciding_world)
  = Ok (OrderBody (filled 42))
  /\ signedTimestamps
       (log (snd (handleSignedRequest 1 "/fapi/v1/order" [] "GET" 2 coinciding_world)))
     = [100000; 100000]
  /\ In SyncStarted
       (log (snd (handleSignedRequest 1 "/fapi/v1/order" [] "GET" 2 coinciding_world)))
  /\ ~ NoDup [100000; 100000].
Proof.
  split; [vm_compute; reflexivity|].
  split; [vm_compute; reflexivity|].
  split; [vm_compute; tauto|].
  intros H. inversion H as [|x l Hin _]; subst. apply Hin. now left.
Qed.

End ClockFacts.


(** ** Order cache: the sweep *)

Module CacheFacts.

Import Adapter.
Open Scope string_scope.
Open Scope Z_scope.

(** *** Deleting keys *)

Lemma filter_filter {A : Type} (f g : A -> bool) (l : list A) :
  filter f (filter g l) = filter (fun x => (g x && f x)%bool) l.
Proof.
  induction l as [|x l IH]; simpl; [reflexivity|].
  destruct (g x); simpl; [destruct (f x)|]; now rewrite IH.
Qed.

Lemma delete_keys (ks : list string) (c : Cache) :
  fold_left (fun c key => assocDelete key c) ks c
  = filter (fun kv => negb (keyIn ks kv)) c.
Proof.
  revert c. induction ks as [|k ks IH]; intros c; simpl.
  - symmetry. apply forallb_filter_id. now apply forallb_forall.
  - rewrite IH. unfold assocDelete. rewrite filter_filter.
    apply filter_ext. intros [k' e]. unfold keyIn. simpl.
    rewrite (String.eqb_sym k k'). now rewrite negb_orb.
Qed.

Lemma delete_entries (es : list (string * CacheEntry)) (c : Cache) :
  fold_left (fun c kv => assocDelete (fst kv) c) es c
  = fold_left (fun c key => assocDelete key c) (map fst es) c.
Proof.
  revert c. induction es as [|e es IH]; intros c; simpl; [reflexivity|].
  apply IH.
Qed.

Lemma keyIn_spec (ks : list string) (kv : string * CacheEntry) :
  keyIn ks kv = true <-> In (fst kv) ks.
Proof.
  unfold keyIn. rewrite existsb_exists. split.
  - intros (k & Hin & Heq). apply String.eqb_eq in Heq. now subst.
  - intros Hin. exists (fst kv). split; [assumption | apply String.eqb_refl].
Qed.

Lemma unique_key (c : Cache) (a b : string * CacheEntry) :
  NoDup (keys c) -> In a c -> In b c -> fst a = fst b -> a = b.
Proof.
  unfold keys. induction c as [|x c IH]; simpl; intros Hnd Ha Hb Hk; [tauto|].
  inversion Hnd as [|? ? Hnotin Hnd']; subst.
  destruct Ha as [->|Ha], Hb as [->|Hb]; try reflexivity.
  - exfalso. apply Hnotin. rewrite Hk. now apply in_map.
  - exfalso. apply Hnotin. rewrite <- Hk. now apply in_map.
  - now apply IH.
Qed.

(** The first loop pair of [cleanupCache] removes exactly the expired
    entries. *)
Lemma delete_expired (now : Z) (c : Cache) :
  NoDup (keys c) ->
  fold_left (fun c key => assocDelete key c)
    (map fst (filter (fun kv => expired now (snd kv)) c)) c
  = filter (unexpired now) c.
Proof.
  intros Hnd. rewrite delete_keys. apply filter_ext_in.
  intros kv Hin. unfold unexpired. f_equal.
  destruct (expired now (snd kv)) eqn:E.
  - apply keyIn_spec. apply in_map. apply filter_In. now split.
  - destruct (keyIn _ kv) eqn:K; [|reflexivity].
    apply keyIn_spec in K. apply in_map_iff in K as (kv' & Hk & Hin').
    apply filter_In in Hin' as [Hin' E'].
    assert (kv' = kv) by (eapply unique_key; eassumption).
    subst. congruence.
Qed.

(** *** Sorting by timestamp *)

Lemma insertByTimestamp_perm (e : string * CacheEntry) (l : list (string * CacheEntry)) :
  Permutation (e :: l) (insertByTimestamp e l).
Proof.
  induction l as [|x l IH]; simpl; [apply Permutation_refl|].
  destruct (timestamp (snd e) <=? timestamp (snd x)).
  - apply Permutation_refl.
  - eapply perm_trans; [apply perm_swap|]. now apply perm_skip.
Qed.

Lemma sortByTimestamp_perm (l : list (string * CacheEntry)) :
  Permutation l (sortByTimestamp l).
Proof.
  induction l as [|e l IH]; simpl; [apply perm_nil|].
  eapply perm_trans; [apply perm_skip, IH | apply insertByTimestamp_perm].
Qed.

Lemma insertByTimestamp_sorted (e : string * CacheEntry) (l : list (string * CacheEntry)) :
  StronglySorted olderOrEqual l -> StronglySorted olderOrEqual (insertByTimestamp e l).
Proof.
  induction 1 as [|x l Hs IH Hx]; simpl.
  - repeat constructor.
  - destruct (timestamp (snd e) <=? timestamp (snd x)) eqn:E.
    + apply Z.leb_le in E. constructor; [now constructor|].
      constructor; [exact E|].
      eapply Forall_impl; [|exact Hx]. unfold olderOrEqual. intros; lia.
    + apply Z.leb_gt in E. constructor; [exact IH|].
      eapply Permutation_Forall; [apply insertByTimestamp_perm|].
      constructor; [unfold olderOrEqual; lia | exact Hx].
Qed.

Lemma sortByTimestamp_sorted (l : list (string * CacheEntry)) :
  StronglySorted olderOrEqual (sortByTimestamp l).
Proof.
  induction l as [|e l IH]; simpl; [constructor|].
  now apply insertByTimestamp_sorted.
Qed.

Lemma sorted_app_le (a b : list (string * CacheEntry)) :
  StronglySorted olderOrEqual (a ++ b) ->
  forall x y, In x a -> In y b -> olderOrEqual x y.
Proof.
  induction a as [|h a IH]; simpl; intros Hs x y Hx Hy; [tauto|].
  apply StronglySorted_inv in Hs as [Hs Hh].
  destruct Hx as [->|Hx].
  - rewrite Forall_forall in Hh. apply Hh. apply in_or_app. now right.
  - now apply IH.
Qed.

Lemma Permutation_filter {A : Type} (f : A -> bool) (l l' : list A) :
  Permutation l l' -> Permutation (filter f l) (filter f l').
Proof.
  induction 1 as [|x l l' _ IH|x y l|l l' l'' _ IH1 _ IH2]; simpl.
  - apply perm_nil.
  - destruct (f x); [now apply perm_skip | exact IH].
  - destruct (f x), (f y); try apply Permutation_refl. apply perm_swap.
  - eapply perm_trans; eassumption.
Qed.

Lemma filter_none {A : Type} (f : A -> bool) (l : list A) :
  (forall x, In x l -> f x = false) -> filter f l = [].
Proof.
  induction l as [|x l IH]; simpl; intros H; [reflexivity|].
  rewrite (H x) by now left. apply IH. intros y Hy. apply H. now right.
Qed.

Lemma NoDup_app_disjoint {A : Type} (a b : list A) (x : A) :
  NoDup (a ++ b) -> In x a -> In x b -> False.
Proof.
  induction a as [|h a IH]; simpl; intros Hnd Ha Hb; [tauto|].
  inversion Hnd as [|? ? Hnotin Hnd']; subst.
  destruct Ha as [->|Ha]; [|now apply IH].
  apply Hnotin. apply in_or_app. now right.
Qed.

(** Deleting the keys of a part of a cache leaves the other part. *)
Lemma delete_part (c gone kept : Cache) :
  NoDup (keys c) -> Permutation c (gone ++ kept) ->
  Permutation (filter (fun kv => negb (keyIn (map fst gone) kv)) c) kept.
Proof.
  intros Hnd Hperm.
  assert (Hnd' : NoDup (map fst gone ++ map fst kept)).
  { rewrite <- map_app. eapply Permutation_NoDup; [|exact Hnd].
    now apply Permutation_map. }
  eapply perm_trans; [apply Permutation_filter, Hperm|].
  rewrite filter_app.
  rewrite filter_none.
  - simpl. rewrite forallb_filter_id; [apply Permutation_refl|].
    apply forallb_forall. intros kv Hin. apply negb_true_iff.
    destruct (keyIn (map fst gone) kv) eqn:K; [|reflexivity].
    exfalso. apply keyIn_spec in K.
    eapply NoDup_app_disjoint; [exact Hnd' | exact K | now apply in_map].
  - intros kv Hin. apply negb_false_iff. apply keyIn_spec. now apply in_map.
Qed.

(** *** The sweep *)

Lemma cleanupCacheAt_unfold (now : Z) (c : Cache) :
  NoDup (keys c) ->
  let kept := filter (unexpired now) c in
  cleanupCacheAt now c =
  if (MAX_CACHE_SIZE <? length kept)%nat
  then filter (fun kv => negb (keyIn
         (map fst (firstn (length kept - MAX_CACHE_SIZE) (sortByTimestamp kept))) kv))
         kept
  else kept.
Proof.
  intros Hnd kept. unfold cleanupCacheAt. cbv zeta.
  rewrite (delete_expired now c Hnd). fold kept.
  destruct (MAX_CACHE_SIZE <? length kept)%nat; [|reflexivity].
  now rewrite delete_entries, delete_keys.
Qed.

Lemma keys_filter_NoDup (f : string * CacheEntry -> bool) (c : Cache) :
  NoDup (keys c) -> NoDup (keys (filter f c)).
Proof.
  unfold keys. induction c as [|x c IH]; simpl; intros Hnd; [constructor|].
  inversion Hnd as [|? ? Hnotin Hnd']; subst.
  destruct (f x); simpl; [|now apply IH].
  constructor; [|now apply IH].
  intros Hin. apply Hnotin. apply in_map_iff in Hin as (y & Hy & Hin).
  apply filter_In in Hin as [Hin _]. rewrite <- Hy. now apply in_map.
Qed.

(** C3.  The sweep at local time [now] of a cache with distinct keys, which
    is what [cleanupCache] leaves in the client, keeps,
    of the entries that have not expired, those that are not [evicted]:
    nothing is evicted while no more than [MAX_CACHE_SIZE] entries are
    fresh, otherwise exactly the surplus is, and no evicted entry is newer
    than a retained one.  So a cache of [MAX_CACHE_SIZE + 5] fresh entries
    is left with [MAX_CACHE_SIZE] entries, its 5 oldest by timestamp
    evicted. *)
Theorem cleanupCache_sweep (now : Z) (c : Cache) :
  NoDup (keys c) ->
  exists evicted : Cache,
    (forall w : World, orderCache w = c -> clock w (ticks w) = now ->
       fst (cleanupCache w) = Ok tt
       /\ orderCache (snd (cleanupCache w)) = cleanupCacheAt now c)
    /\ Permutation (filter (unexpired now) c) (evicted ++ cleanupCacheAt now c)
    /\ (forall kv, In kv (cleanupCacheAt now c) -> expired now (snd kv) = false)
    /\ length (cleanupCacheAt now c)
       = Nat.min (length (filter (unexpired now) c)) MAX_CACHE_SIZE
    /\ length evicted = (length (filter (unexpired now) c) - MAX_CACHE_SIZE)%nat
    /\ (forall e k, In e evicted -> In k (cleanupCacheAt now c) ->
        timestamp (snd e) <= timestamp (snd k))
    /\ (forallb (unexpired now) c = true -> length c = (MAX_CACHE_SIZE + 5)%nat ->
        length (cleanupCacheAt now c) = MAX_CACHE_SIZE /\ length evicted = 5%nat).
Proof.
  intros Hnd.
  assert (Hrun : forall w : World, orderCache w = c -> clock w (ticks w) = now ->
            fst (cleanupCache w) = Ok tt
            /\ orderCache (snd (cleanupCache w)) = cleanupCacheAt now c).
  { intros w <- <-. now destruct w. }
  pose proof (cleanupCacheAt_unfold now c Hnd) as Hun. cbv zeta in Hun.
  set (kept := filter (unexpired now) c) in *.
  assert (Hkeys : NoDup (keys kept)) by now apply keys_filter_NoDup.
  set (sorted := sortByTimestamp kept) in *.
  set (n := (length kept - MAX_CACHE_SIZE)%nat) in *.
  assert (Hfresh : forall kv, In kv kept -> expired now (snd kv) = false).
  { intros kv Hin. apply filter_In in Hin as [_ Hf].
    unfold unexpired in Hf. now apply negb_true_iff in Hf. }
  assert (Hall : forallb (unexpired now) c = true -> kept = c).
  { intros H. unfold kept. now apply forallb_filter_id. }
  destruct (MAX_CACHE_SIZE <? length kept)%nat eqn:E.
  - apply Nat.ltb_lt in E.
    assert (Hsplit : Permutation kept (firstn n sorted ++ skipn n sorted)).
    { rewrite firstn_skipn. apply sortByTimestamp_perm. }
    pose proof (delete_part kept (firstn n sorted) (skipn n sorted) Hkeys Hsplit)
      as Hrest.
    rewrite <- Hun in Hrest.
    assert (Hlen : length sorted = length kept).
    { symmetry. apply Permutation_length. apply sortByTimestamp_perm. }
    assert (Hgone : length (firstn n sorted) = n).
    { rewrite length_firstn. unfold n. lia. }
    assert (Hleft : length (cleanupCacheAt now c) = MAX_CACHE_SIZE).
    { rewrite (Permutation_length Hrest), length_skipn. unfold n. lia. }
    exists (firstn n sorted).
    split; [exact Hrun|].
    split.
    { eapply perm_trans; [exact Hsplit|].
      apply Permutation_app_head. now apply Permutation_sym. }
    split.
    { intros kv Hin. apply Hfresh. rewrite Hun in Hin.
      now apply filter_In in Hin as [Hin _]. }
    split; [rewrite Hleft; lia|].
    split; [exact Hgone|].
    split.
    { intros e k He Hk.
      apply (sorted_app_le (firstn n sorted) (skipn n sorted)).
      - rewrite firstn_skipn. apply sortByTimestamp_sorted.
      - exact He.
      - eapply Permutation_in; [exact Hrest | exact Hk]. }
    intros Hf Hc. split; [exact Hleft|].
    rewrite Hgone. unfold n. rewrite (Hall Hf), Hc. lia.
  - apply Nat.ltb_ge in E.
    exists []. split; [exact Hrun|]. rewrite Hun. cbn [app length].
    split; [apply Permutation_refl|].
    split; [exact Hfresh|].
    split; [lia|]. split; [lia|].
    split; [intros e k []|].
    intros Hf Hc. rewrite (Hall Hf), Hc in E. lia.
Qed.

Lemma distinct_NoDup (l : list string) : Scenarios.distinct l = true -> NoDup l.
Proof.
  induction l as [|x l IH]; simpl; intros H; [constructor|].
  apply andb_prop in H as [Hx Hl]. constructor; [|now apply IH].
  intros Hin. apply negb_true_iff in Hx.
  assert (existsb (String.eqb x) l = true); [|congruence].
  apply existsb_exists. exists x. split; [assumption | apply String.eqb_refl].
Qed.

Lemma cleanupCache_sweep_witness :
  length (cleanupCacheAt 2000 (Scenarios.descending (MAX_CACHE_SIZE + 5)))
  = MAX_CACHE_SIZE
  /\ exists evicted : Cache,
       length evicted = 5%nat
       /\ Permutation (Scenarios.descending (MAX_CACHE_SIZE + 5))
            (evicted ++ cleanupCacheAt 2000 (Scenarios.descending (MAX_CACHE_SIZE + 5)))
       /\ forall e k, In e evicted ->
            In k (cleanupCacheAt 2000 (Scenarios.descending (MAX_CACHE_SIZE + 5))) ->
            timestamp (snd e) <= timestamp (snd k).
Proof.
  destruct (cleanupCache_sweep 2000 (Scenarios.descending (MAX_CACHE_SIZE + 5)))
    as (evicted & _ & Hperm & _ & _ & _ & Hold & Hfive).
  - apply distinct_NoDup. vm_compute. reflexivity.
  - assert (Hf : forallb (unexpired 2000) (Scenarios.descending (MAX_CACHE_SIZE + 5)) = true)
      by (vm_compute; reflexivity).
    destruct (Hfive Hf) as [Hleft Hgone]; [vm_compute; reflexivity|].
    split; [exact Hleft|].
    exists evicted. split; [exact Hgone|]. split; [|exact Hold].
    rewrite (forallb_filter_id _ _ Hf) in Hperm. exact Hperm.
Defined.

(** The five orders placed last carry the five oldest timestamps of
    [descending], and they are the ones evicted. *)
Example descending_sweep :
  map fst (cleanupCacheAt 2000 (Scenarios.descending (MAX_CACHE_SIZE + 5)))
  = map fst (firstn MAX_CACHE_SIZE (Scenarios.descending (MAX_CACHE_SIZE + 5))).
Proof. vm_compute. reflexivity. Qed.

Example ascending_sweep :
  map fst (cleanupCacheAt 2000 (Scenarios.ascending (MAX_CACHE_SIZE + 5)))
  = map fst (skipn 5 (Scenarios.ascending (MAX_CACHE_SIZE + 5))).
Proof. vm_compute. reflexivity. Qed.

(** An entry older than [CACHE_TTL] is swept although the cache is far
    from full. *)
Example expired_swept :
  cleanupCacheAt (CACHE_TTL + 3) (Scenarios.ascending 4)
  = skipn 2 (Scenarios.ascending 4).
Proof. vm_compute. reflexivity. Qed.

End CacheFacts.

(** ** Order lookup and placement *)

Module OrderFacts.

Import Adapter Scenarios CacheFacts.
Open Scope string_scope.
Open Scope Z_scope.

(** *** Inversion of the monad's combinators *)

Lemma bind_Ok {A B : Type} (c : M A) (k : A -> M B) (w w' : World) (b : B) :
  bind c k w = (Ok b, w') ->
  exists (a : A) (w1 : World), c w = (Ok a, w1) /\ k a w1 = (Ok b, w').
Proof.
  unfold bind. destruct (c w) as [[a|e] w1]; intros H; [|discriminate].
  now exists a, w1.
Qed.

Lemma rethrow_Ok {A : Type} (c : M A) (w w' : World) (a : A) :
  catch c (fun error => throw error) w = (Ok a, w') -> c w = (Ok a, w').
Proof.
  unfold catch, throw. destruct (c w) as [[a'|e] w1]; intros H;
    [assumption | discriminate].
Qed.

Lemma rethrow_run {A : Type} (c : M A) (w : World) :
  catch c (fun error => throw error) w = c w.
Proof. unfold catch, throw. now destruct (c w) as [[a|e] w1]. Qed.

(** *** Lookup *)

Example quiet_world_lookup :
  fst (getOrder 1 "7" quiet_world) = Ok (assumedFinished "7" 5002).
Proof. vm_compute. reflexivity. Qed.

(** C7.  When the order is not in the cache and the open orders, once
    listed, do not contain it, [getOrder] does not raise: it returns the
    assumed-finished result, whose status is "finished".  No direct query
    is made on this path. *)
Theorem getOrder_assume_finished
    (depth : nat) (orderId : string) (w w1 : World) (openOrders : list OrderResponse) :
  assocGet orderId (orderCache w) = None ->
  getOpenOrders depth None 2 w = (Ok openOrders, w1) ->
  find (fun o => String.eqb (id o) orderId) openOrders = None ->
  exists (result : OrderResponse) (w' : World),
    getOrder depth orderId w = (Ok result, w')
    /\ result = assumedFinished orderId (clock w1 (ticks w1))
    /\ id result = orderId
    /\ status result = "finished"
    /\ orderCache w' = orderCache w1.
Proof.
  intros Hcache Hopen Hfind.
  exists (assumedFinished orderId (clock w1 (ticks w1))), (set_ticks (S (ticks w1)) w1).
  split; [|repeat split; now destruct w1].
  unfold getOrder. rewrite rethrow_run.
  unfold bind at 1. unfold get at 1. rewrite Hcache.
  unfold bind at 1. rewrite Hopen, Hfind.
  reflexivity.
Qed.

Lemma getOrder_assume_finished_witness :
  exists (result : OrderResponse) (w' : World),
    getOrder 1 "7" quiet_world = (Ok result, w')
    /\ id result = "7" /\ status result = "finished".
Proof.
  edestruct (getOrder_assume_finished 1 "7" quiet_world)
    as (result & w' & Hrun & _ & Hid & Hstatus & _).
  - reflexivity.
  - vm_compute. reflexivity.
  - reflexivity.
  - exists result, w'. repeat split; assumption.
Defined.

(** When the listing of open orders itself fails, its error reaches the
    caller. *)
Lemma getOrder_listing_failure
    (depth : nat) (orderId : string) (w w1 : World) (e : Error) :
  assocGet orderId (orderCache w) = None ->
  getOpenOrders depth None 2 w = (Throw e, w1) ->
  getOrder depth orderId w = (Throw e, w1).
Proof.
  intros Hcache Hopen. unfold getOrder. rewrite rethrow_run.
  unfold bind at 1. unfold get at 1. rewrite Hcache.
  unfold bind at 1. now rewrite Hopen.
Qed.

(** *** The age of what the cache serves *)

Lemma assocGet_In {V : Type} (k : string) (v : V) (m : list (string * V)) :
  assocGet k m = Some v -> In (k, v) m.
Proof.
  induction m as [|[k' v'] m IH]; simpl; [discriminate|].
  destruct (String.eqb_spec k k') as [->|Hne].
  - intros H. injection H as ->. now left.
  - intros H. right. now apply IH.
Qed.

Lemma cleanupCacheAt_fresh (now : Z) (c : Cache) (kv : string * CacheEntry) :
  In kv (cleanupCacheAt now c) -> expired now (snd kv) = false.
Proof.
  unfold cleanupCacheAt. cbv zeta. rewrite delete_keys.
  set (ks := map fst (filter (fun kv => expired now (snd kv)) c)).
  intros Hin.
  assert (Hin1 : In kv (filter (fun kv => negb (keyIn ks kv)) c)).
  { destruct (MAX_CACHE_SIZE <? _)%nat; [|exact Hin].
    rewrite delete_entries, delete_keys in Hin.
    now apply filter_In in Hin as [Hin _]. }
  apply filter_In in Hin1 as [Hc Hk]. apply negb_true_iff in Hk.
  destruct (expired now (snd kv)) eqn:E; [|reflexivity].
  assert (keyIn ks kv = true); [|congruence].
  apply keyIn_spec. unfold ks. apply in_map. apply filter_In. now split.
Qed.

Lemma sweep_serves_fresh (now : Z) (c : Cache) (orderId : string) (entry : CacheEntry) :
  assocGet orderId (cleanupCacheAt now c) = Some entry ->
  now - timestamp entry <= CACHE_TTL.
Proof.
  intros H. apply assocGet_In in H. apply cleanupCacheAt_fresh in H.
  unfold expired in H. simpl in H. lia.
Qed.

Lemma cleanupCache_run (w : World) :
  cleanupCache w =
  (Ok tt, set_orderCache (cleanupCacheAt (clock w (ticks w)) (orderCache w))
            (set_ticks (S (ticks w)) w)).
Proof. now destruct w. Qed.

(** C4, as amended.  The age limit is enforced by the sweep, which
    [placeOrder] runs after caching the new order, and not by the lookup:
    when [placeOrder] returns, at the local time [now] of its sweep, every
    entry the cache can serve has [now - timestamp <= CACHE_TTL], whatever
    the size of the cache. *)
Theorem placeOrder_sweeps_expired
    (depth retries : nat) (params : OrderParams) (w w' : World)
    (result : OrderResponse) (orderId : string) (entry : CacheEntry) :
  placeOrder depth params retries w = (Ok result, w') ->
  assocGet orderId (orderCache w') = Some entry ->
  clock w' (ticks w' - 1) - timestamp entry <= CACHE_TTL.
Proof.
  intros Hrun Hget. unfold placeOrder in Hrun.
  apply rethrow_Ok in Hrun.
  apply bind_Ok in Hrun as (quantity & w1 & _ & Hrun).
  apply bind_Ok in Hrun as (response & w2 & _ & Hrun).
  destruct response as [t|r|os|ss|]; try discriminate.
  apply bind_Ok in Hrun as ([] & w3 & _ & Hrun).
  apply bind_Ok in Hrun as ([] & w4 & Hsweep & Hrun).
  unfold ret in Hrun. injection Hrun as _ <-.
  rewrite cleanupCache_run in Hsweep. injection Hsweep as <-.
  destruct w3 as [off last sp cache clk k net lg]. cbn in Hget |- *.
  replace (k - 0)%nat with k by lia.
  eapply sweep_serves_fresh. exact Hget.
Qed.

Lemma placeOrder_sweeps_expired_witness :
  fst (placeOrder 1 btc_params 2 placing_world) <> Throw TypeError
  /\ map fst (orderCache (snd (placeOrder 1 btc_params 2 placing_world))) = ["8"; "42"]
  /\ (day + 1003) - day <= CACHE_TTL.
Proof.
  split; [vm_compute; discriminate|].
  split; [vm_compute; reflexivity|].
  apply (placeOrder_sweeps_expired 1 2 btc_params placing_world
           (snd (placeOrder 1 btc_params 2 placing_world))
           (let (r, _) := placeOrder 1 btc_params 2 placing_world in
            match r with Ok o => o | Throw _ => old_order end)
           "8" (entryAt day)).
  - vm_compute. reflexivity.
  - vm_compute. reflexivity.
Defined.

(** C4, as stated, fails: [getOrder] looks the order up without looking at
    its age.  Here the only cached order is a day and a second old, the
    cache is far from full, the exchange cannot be reached, and the cached
    order is what the caller gets; the entry stays in the cache. *)
Lemma getOrder_serves_expired :
  assocGet "42" (orderCache stale_world)
  = Some {| entryContract := "BTC/USDT:USDT"; orderInfo := old_order; timestamp := 0 |}
  /\ expired (clock stale_world 0)
       {| entryContract := "BTC/USDT:USDT"; orderInfo := old_order; timestamp := 0 |}
     = true
  /\ (length (orderCache stale_world) <= MAX_CACHE_SIZE)%nat
  /\ fst (getOrder 1 "42" stale_world) = Ok old_order
  /\ assocGet "42" (orderCache (snd (getOrder 1 "42" stale_world)))
     = Some {| entryContract := "BTC/USDT:USDT"; orderInfo := old_order; timestamp := 0 |}.
Proof.
  split; [reflexivity|]. split; [reflexivity|].
  split; [unfold MAX_CACHE_SIZE; simpl; lia|].
  split; vm_compute; reflexivity.
Qed.

End OrderFacts.

(** ** Concurrent callers: what is shared and what is not *)

Module ConcurrentFacts.

Import Concurrent.
Open Scope Z_scope.

(** While [syncPromise] is set, callers that enter only wait for it: no
    time query is sent for them. *)
Lemma calls_share_pending (nows : list Z) (c : Client) (p : nat) :
  syncPromise c = Some p ->
  exists c' : Client,
    run (map Call nows) c = Some c'
    /\ syncs c' = syncs c
    /\ syncPromise c' = Some p
    /\ callers c' = (callers c ++ map (fun _ => AwaitingShared p) nows)%list.
Proof.
  revert c. induction nows as [|t nows IH]; intros c Hp; simpl.
  - exists c. rewrite app_nil_r. auto.
  - unfold call. rewrite Hp.
    edestruct IH as (c' & Hrun & Hsyncs & Hprom & Hcallers);
      [|exists c'; split; [exact Hrun|]].
    + reflexivity.
    + simpl in *. rewrite Hsyncs, Hprom, Hcallers, <- app_assoc.
      auto.
Qed.

(** The synchronisation started by the constructor is shared: three
    callers enter while it is pending, one answer arrives, and all three
    return; one time query was sent in all. *)
Example initial_sync_shared :
  option_map (fun c => (roundTrips c, callers c, timeOffset c))
    (run [Call 1000; Call 1001; Call 1002;
          Reply 0 7000 1100 1100;
          Resume 0; Resume 1; Resume 2] (created 1000))
  = Some (1%nat, [Returned; Returned; Returned], 7000 + (1100 - 1000) / 2 - 1100 - 2000).
Proof. reflexivity. Qed.

(** Once [syncPromise] is cleared and the last synchronisation is older
    than the resynchronisation interval, every caller that enters before a
    resynchronisation has completed starts one of its own. *)
Lemma calls_resync_each (nows : list Z) (c : Client) :
  syncPromise c = None ->
  Forall (fun now => now - lastSyncTime c > Adapter.RESYNC_INTERVAL) nows ->
  exists c' : Client,
    run (map Call nows) c = Some c'
    /\ roundTrips c' = (roundTrips c + length nows)%nat
    /\ syncPromise c' = None
    /\ lastSyncTime c' = lastSyncTime c.
Proof.
  revert c. induction nows as [|t nows IH]; intros c Hp Hall; simpl.
  - exists c. unfold roundTrips. repeat split; auto.
  - inversion Hall as [|? ? Ht Hrest]; subst.
    unfold call. rewrite Hp. cbv zeta.
    apply Z.gt_lt, Z.gtb_lt in Ht. rewrite Ht.
    edestruct IH as (c' & Hrun & Htrips & Hprom & Hlast);
      [| |exists c'; split; [exact Hrun|]].
    + reflexivity.
    + exact Hrest.
    + unfold roundTrips in *. simpl in *.
      rewrite Htrips, Hprom, Hlast, length_app. simpl.
      repeat split; auto. lia.
Qed.

(** C8 at the failing input.  The last synchronisation dates from local
    time 0 and [syncPromise] is cleared; two callers enter at local times
    200000 and 200001, before any answer has arrived: each sends a time
    query of its own, two round trips instead of the one the specification
    requires. *)
Theorem resync_not_shared :
  option_map (fun c => (roundTrips c - roundTrips (idle 0 0))%nat)
    (run [Call 200000; Call 200001] (idle 0 0)) = Some 2%nat
  /\ option_map callers (run [Call 200000; Call 200001] (idle 0 0))
     = Some [AwaitingOwn 1; AwaitingOwn 2]
  /\ option_map syncPromise (run [Call 200000; Call 200001] (idle 0 0)) = Some None.
Proof. repeat split; reflexivity. Qed.

End ConcurrentFacts.

(** ** Position-size helpers: totality and the absence of NaN *)

Module PositionSizeFacts.

Import PositionSize.
Open Scope string_scope.

Example parseFloat_examples :
  parseFloat "0.5" = Finite (5 # 10)
  /\ parseFloat "  -12.50abc" = Finite (- (1250 # 100))
  /\ parseFloat "1e3" = Finite 1000
  /\ parseFloat ".5e-1" = Finite ((5 # 1) * (1 # 100))
  /\ parseFloat "7." = Finite 7
  /\ parseFloat "abc" = NaN
  /\ parseFloat "." = NaN
  /\ parseFloat "-" = NaN
  /\ parseFloat "" = NaN
  /\ parseFloat "-Infinity" = NegInfinity
  /\ parseFloat "1e-400" = Finite 0.
Proof. vm_compute. repeat split; reflexivity. Qed.

Example numberToString_examples :
  numberToString (Finite (1 # 2)) = "0.5"
  /\ numberToString (Finite (- (5 # 4))) = "-1.25"
  /\ numberToString (Finite 42) = "42"
  /\ numberToString (Finite 0) = "0"
  /\ numberToString (Finite (1 # 1000)) = "0.001".
Proof. vm_compute. repeat split; reflexivity. Qed.

Example parsePositionSize_examples :
  parsePositionSize (SizeString "0.015") = Finite (15 # 1000)
  /\ parsePositionSize (SizeString "-3") = Finite (- (3))
  /\ parsePositionSize (SizeNumber (Finite (- (5 # 4)))) = Finite (- (125 # 100))
  /\ parsePositionSize (SizeNumber NaN) = Finite 0
  /\ parsePositionSize (SizeString "n/a") = Finite 0
  /\ isValidPosition (SizeString "0.000") = false
  /\ isValidPosition (SizeString "0.015") = true
  /\ isValidPosition Undefined = false.
Proof. vm_compute. repeat split; reflexivity. Qed.

Lemma strictNotEqual_zero (n : JsNumber) :
  n <> NaN -> (strictNotEqual n (Finite 0) = true <-> ~ isZero n).
Proof.
  intros Hn. destruct n as [q| | |]; simpl; try congruence.
  - split.
    + intros H (q' & E & Hq). injection E as <-.
      apply negb_true_iff in H. apply Qeq_bool_iff in Hq. congruence.
    + intros H. apply negb_true_iff.
      destruct (Qeq_bool q 0) eqn:E; [|reflexivity].
      exfalso. apply H. exists q. split; [reflexivity|]. now apply Qeq_bool_iff.
  - split; [|reflexivity]. intros _ (q & E & _). discriminate.
  - split; [|reflexivity]. intros _ (q & E & _). discriminate.
Qed.

Lemma parsePositionSize_cases (sizeValue : SizeValue) :
  parsePositionSize sizeValue =
  match sizeValue with
  | Undefined | Null => Finite 0
  | _ =>
    if isEmptyString sizeValue then Finite 0
    else match parseFloat (valueToString sizeValue) with
         | NaN => Finite 0
         | parsed => parsed
         end
  end.
Proof.
  destruct sizeValue as [s|n| |]; try reflexivity; unfold parsePositionSize;
    destruct (isEmptyString _); try reflexivity;
    now destruct (parseFloat _).
Qed.

(** C10, as amended.  [parsePositionSize] is total and never returns NaN;
    it returns 0 for [undefined], [null], the empty string and any value
    whose text [parseFloat] does not parse; for every other value it
    returns what [parseFloat] parses from its text, which is a finite
    number or an infinity; and [isValidPosition] holds exactly when
    [parsePositionSize] is not zero. *)
Theorem parsePositionSize_never_NaN (sizeValue : SizeValue) :
  parsePositionSize sizeValue <> NaN
  /\ (absent sizeValue -> parsePositionSize sizeValue = Finite 0)
  /\ (parseFloat (valueToString sizeValue) = NaN ->
      parsePositionSize sizeValue = Finite 0)
  /\ (~ absent sizeValue -> parseFloat (valueToString sizeValue) <> NaN ->
      parsePositionSize sizeValue = parseFloat (valueToString sizeValue))
  /\ (isFinite (parsePositionSize sizeValue)
      \/ parsePositionSize sizeValue = PosInfinity
      \/ parsePositionSize sizeValue = NegInfinity)
  /\ (isValidPosition sizeValue = true <-> ~ isZero (parsePositionSize sizeValue)).
Proof.
  assert (Hnan : parsePositionSize sizeValue <> NaN).
  { rewrite parsePositionSize_cases.
    destruct sizeValue as [s|n| |]; try discriminate;
      destruct (isEmptyString _); try discriminate;
      destruct (parseFloat _); discriminate. }
  split; [exact Hnan|].
  split.
  { intros [->|[->| ->]]; reflexivity. }
  split.
  { intros H. rewrite parsePositionSize_cases, H.
    destruct sizeValue as [s|n| |]; try reflexivity;
      now destruct (isEmptyString _). }
  split.
  { intros Habs Hp. rewrite parsePositionSize_cases.
    destruct sizeValue as [s|n| |].
    - simpl isEmptyString. destruct (String.eqb_spec s "") as [->|_].
      + exfalso. apply Habs. unfold absent. auto.
      + now destruct (parseFloat _).
    - simpl isEmptyString. cbv iota. now destruct (parseFloat _).
    - exfalso. apply Habs. unfold absent. auto.
    - exfalso. apply Habs. unfold absent. auto. }
  split.
  { destruct (parsePositionSize sizeValue) as [q| | |]; try tauto.
    left. now exists q. }
  unfold isValidPosition. now apply strictNotEqual_zero.
Qed.

(** C10, as stated, fails: the value returned for a numeric input need not
    be finite.  The numeric text "1e400" exceeds every double and parses to
    [Infinity], as do the text "Infinity" and the number [Infinity]; each
    is returned as it is. *)
Lemma parsePositionSize_infinite :
  parsePositionSize (SizeString "1e400") = PosInfinity
  /\ parsePositionSize (SizeString "Infinity") = PosInfinity
  /\ parsePositionSize (SizeNumber NegInfinity) = NegInfinity
  /\ ~ isFinite (parsePositionSize (SizeString "1e400"))
  /\ isValidPosition (SizeString "1e400") = true.
Proof.
  assert (E : parsePositionSize (SizeString "1e400") = PosInfinity)
    by (vm_compute; reflexivity).
  split; [exact E|].
  split; [vm_compute; reflexivity|].
  split; [vm_compute; reflexivity|].
  split; [|vm_compute; reflexivity].
  rewrite E. intros [q Hq]. discriminate.
Qed.

End PositionSizeFacts.

(** ** Transport: what every request leaves alone and how often it signs *)

Module TransportFacts.

Import Adapter Operations.
Open Scope string_scope.
Open Scope Z_scope.

Lemma signedCount_app (a b : list Event) :
  signedCount (a ++ b) = (signedCount a + signedCount b)%nat.
Proof.
  induction a as [|e a IH]; [reflexivity|].
  destruct e; simpl; now rewrite IH.
Qed.

Lemma advances_refl (w : World) : advances 0 w w.
Proof.
  repeat split; auto.
  - now exists [].
  - exists []. now rewrite app_nil_r.
Qed.

Lemma advances_trans (n m : nat) (w w1 w2 : World) :
  advances n w w1 -> advances m w1 w2 -> advances (n + m) w w2.
Proof.
  intros (Hc & Hk & Ht & (u & Hu) & (t & Hl & Hn))
         (Hc' & Hk' & Ht' & (u' & Hu') & (t' & Hl' & Hn')).
  repeat split.
  - congruence.
  - congruence.
  - lia.
  - exists (u ++ u')%list. now rewrite Hu, Hu', app_assoc.
  - exists (t ++ t')%list. split.
    + now rewrite Hl', Hl, app_assoc.
    + rewrite signedCount_app. lia.
Qed.

Lemma advances_weaken (n m : nat) (w w' : World) :
  (n <= m)%nat -> advances n w w' -> advances m w w'.
Proof.
  intros Hnm (Hc & Hk & Ht & Hu & (t & Hl & Hn)).
  repeat split; auto. exists t. split; [assumption | lia].
Qed.

Lemma acts_weaken {A : Type} (n m : nat) (c : M A) :
  (n <= m)%nat -> acts n c -> acts m c.
Proof. intros Hnm H w. eapply advances_weaken; [exact Hnm | apply H]. Qed.

Lemma acts_ret {A : Type} (a : A) : acts 0 (ret a).
Proof. intros w. apply advances_refl. Qed.

Lemma acts_throw {A : Type} (e : Error) : acts 0 (@throw A e).
Proof. intros w. apply advances_refl. Qed.

Lemma acts_get {A : Type} (f : World -> A) : acts 0 (get f).
Proof. intros w. apply advances_refl. Qed.

Lemma acts_bind {A B : Type} (n m : nat) (c : M A) (k : A -> M B) :
  acts n c -> (forall a, acts m (k a)) -> acts (n + m) (bind c k).
Proof.
  intros Hc Hk w. unfold bind. specialize (Hc w).
  destruct (c w) as [[a|e] w1]; simpl in *.
  - eapply advances_trans; [exact Hc | apply Hk].
  - eapply advances_weaken; [|exact Hc]. lia.
Qed.

Lemma acts_catch {A : Type} (n m : nat) (c : M A) (h : Error -> M A) :
  acts n c -> (forall e, acts m (h e)) -> acts (n + m) (catch c h).
Proof.
  intros Hc Hh w. unfold catch. specialize (Hc w).
  destruct (c w) as [[a|e] w1]; simpl in *.
  - eapply advances_weaken; [|exact Hc]. lia.
  - eapply advances_trans; [exact Hc | apply Hh].
Qed.

Ltac advances_steps :=
  unfold advances; cbn;
  (split; [reflexivity|]); (split; [reflexivity|]); (split; [lia|]); split.

Lemma acts_now : acts 0 now.
Proof.
  intros [off last sp cache clk k net lg]. unfold now. advances_steps.
  - now exists [].
  - exists []. now rewrite app_nil_r.
Qed.

Lemma acts_emit (e : Event) : acts (signedCount [e]) (emit e).
Proof.
  intros [off last sp cache clk k net lg]. unfold emit, modify.
  unfold advances. cbn [snd log network set_log orderCache clock ticks].
  (split; [reflexivity|]); (split; [reflexivity|]); (split; [lia|]); split.
  - now exists [].
  - exists [e]. split; [reflexivity | lia].
Qed.

Lemma acts_set_timeOffset (v : Z) : acts 0 (modify (set_timeOffset v)).
Proof.
  intros [off last sp cache clk k net lg]. unfold modify. advances_steps.
  - now exists [].
  - exists []. now rewrite app_nil_r.
Qed.

Lemma acts_set_lastSyncTime (v : Z) : acts 0 (modify (set_lastSyncTime v)).
Proof.
  intros [off last sp cache clk k net lg]. unfold modify. advances_steps.
  - now exists [].
  - exists []. now rewrite app_nil_r.
Qed.

Lemma acts_set_syncPromise (v : option (Result unit)) :
  acts 0 (modify (set_syncPromise v)).
Proof.
  intros [off last sp cache clk k net lg]. unfold modify. advances_steps.
  - now exists [].
  - exists []. now rewrite app_nil_r.
Qed.

Lemma acts_sleep (ms : Z) : acts 0 (sleep ms).
Proof. apply (acts_emit (Slept ms)). Qed.

Lemma acts_fetch (endpoint method : string) (data : Params) (timeoutMs : Z) :
  acts 0 (fetch endpoint method data timeoutMs).
Proof.
  intros [off last sp cache clk k net lg]. unfold fetch, bind, emit, modify, get.
  cbn [snd log network set_log set_network timeOffset lastSyncTime syncPromise
       orderCache clock ticks].
  assert (Htail : exists tail,
            (lg ++ [Fetched endpoint method data timeoutMs])%list = (lg ++ tail)%list
            /\ (signedCount tail <= 0)%nat).
  { exists [Fetched endpoint method data timeoutMs]. split; [reflexivity | simpl; lia]. }
  destruct net as [|[b|c m|t] rest]; cbn; unfold advances; cbn;
    (split; [reflexivity|]); (split; [reflexivity|]); (split; [lia|]);
    (split; [|exact Htail]).
  - now exists [].
  - now exists [HttpOk b].
  - now exists [HttpError c m].
  - now exists [Rejected t].
Qed.

Lemma acts_getServerTime : acts 0 getServerTime.
Proof.
  unfold getServerTime.
  apply (acts_bind 0 0); [apply acts_now|]. intros t.
  apply (acts_bind 0 0); [apply acts_get|]. intros o. apply acts_ret.
Qed.

Lemma acts_generateSignature (data : Params) : acts 1 (generateSignature data).
Proof.
  unfold generateSignature.
  apply (acts_bind 1 0); [apply (acts_emit (Signed data))|]. intros _. apply acts_ret.
Qed.

(** The retry loop of the unsigned requests signs nothing, provided the
    resynchronisation it may call signs nothing. *)
Lemma acts_requestAttempts (sync : M unit) (endpoint : string) (data : Params)
    (retries remaining : nat) :
  acts 0 sync -> acts 0 (requestAttempts sync endpoint data retries remaining).
Proof.
  intros Hsync. induction remaining as [|rest IH]; cbn [requestAttempts].
  - apply acts_throw.
  - apply (acts_bind 0 0).
    + apply (acts_catch 0 0).
      * apply (acts_bind 0 0); [apply acts_fetch|].
        intros [b|c m|t]; [apply acts_ret| |apply acts_throw].
        destruct (_ && _)%bool.
        -- apply (acts_bind 0 0); [exact Hsync|]. intros _.
           apply (acts_bind 0 0); [apply acts_sleep|]. intros _. apply acts_ret.
        -- destruct (_ =? _)%nat; [apply acts_throw|].
           apply (acts_bind 0 0); [apply acts_sleep|]. intros _. apply acts_ret.
      * intros e. destruct (_ =? _)%nat; [apply acts_throw|].
        apply (acts_bind 0 0); [apply acts_sleep|]. intros _. apply acts_ret.
    + intros [b|]; [apply acts_ret | exact IH].
Qed.

Lemma acts_syncServerTime (depth : nat) : acts 0 (syncServerTime depth).
Proof.
  induction depth as [|d IH]; cbn [syncServerTime].
  - apply acts_throw.
  - apply (acts_bind 0 0); [apply (acts_emit SyncStarted)|]. intros _.
    apply (acts_bind 0 0); [apply acts_now|]. intros t0.
    apply (acts_bind 0 0).
    { unfold handleRequest. now apply acts_requestAttempts. }
    intros response.
    apply (acts_bind 0 0); [apply acts_now|]. intros t1.
    destruct response; try apply acts_throw.
    apply (acts_bind 0 0); [apply acts_set_timeOffset|]. intros _.
    apply (acts_bind 0 0); [apply acts_now|]. intros t2.
    apply (acts_bind 0 0); [apply acts_set_lastSyncTime|]. intros _.
    apply (acts_emit (Synced _)).
Qed.

Lemma acts_publicRequest (depth : nat) (endpoint : string) (params : Params)
    (retries : nat) :
  acts 0 (publicRequest depth endpoint params retries).
Proof.
  unfold publicRequest, handleRequest.
  apply acts_requestAttempts, acts_syncServerTime.
Qed.

Lemma acts_ensureTimeSynced (depth : nat) : acts 0 (ensureTimeSynced depth).
Proof.
  unfold ensureTimeSynced.
  apply (acts_bind 0 0); [apply acts_get|].
  intros [[u|e]|]; [apply acts_set_syncPromise | apply acts_throw |].
  apply (acts_bind 0 0); [apply acts_now|]. intros t.
  apply (acts_bind 0 0); [apply acts_get|]. intros last.
  destruct (_ >? _); [apply acts_syncServerTime | apply acts_ret].
Qed.

(** Each iteration of the signed retry loop calls the signer once. *)
Lemma acts_signedAttempts (sync : M unit) (endpoint : string) (params : Params)
    (method : string) (retries remaining : nat) :
  acts 0 sync ->
  acts remaining (signedAttempts sync endpoint params method retries remaining).
Proof.
  intros Hsync. induction remaining as [|rest IH]; cbn [signedAttempts].
  - apply acts_throw.
  - apply (acts_bind 1 rest).
    + apply (acts_catch 1 0).
      * apply (acts_bind 0 1); [apply acts_getServerTime|]. intros timestamp.
        apply (acts_bind 1 0); [apply acts_generateSignature|]. intros signature.
        apply (acts_catch 0 0).
        -- apply (acts_bind 0 0); [apply acts_fetch|].
           intros [b|c m|t]; [apply acts_ret| |apply acts_throw].
           destruct (_ && _)%bool.
           ++ apply (acts_bind 0 0); [exact Hsync|]. intros _.
              apply (acts_bind 0 0); [apply acts_sleep|]. intros _. apply acts_ret.
           ++ destruct (_ =? _)%nat; [apply acts_throw|].
              apply (acts_bind 0 0); [apply acts_sleep|]. intros _. apply acts_ret.
        -- intros e. destruct (_ =? _)%nat; [apply acts_throw|].
           apply (acts_bind 0 0); [apply acts_sleep|]. intros _. apply acts_ret.
      * intros e. destruct (_ =? _)%nat; [apply acts_throw | apply acts_ret].
    + intros [b|]; [|exact IH].
      eapply acts_weaken; [|apply acts_ret]. lia.
Qed.

Lemma acts_handleSignedRequest (depth : nat) (endpoint : string) (params : Params)
    (method : string) (retries : nat) :
  acts retries (handleSignedRequest depth endpoint params method retries).
Proof.
  unfold handleSignedRequest. apply acts_signedAttempts, acts_syncServerTime.
Qed.

Lemma acts_privateRequest (depth : nat) (endpoint : string) (params : Params)
    (method : string) (retries : nat) :
  acts retries (privateRequest depth endpoint params method retries).
Proof.
  unfold privateRequest.
  apply (acts_bind 0 retries); [apply acts_ensureTimeSynced|]. intros _.
  apply acts_handleSignedRequest.
Qed.

Lemma acts_getOpenOrders (depth : nat) (contract : option string) (retries : nat) :
  acts retries (getOpenOrders depth contract retries).
Proof.
  unfold getOpenOrders.
  apply (acts_weaken (retries + 0 + 0)); [lia|].
  apply (acts_catch (retries + 0) 0); [|intros e; apply acts_throw].
  apply (acts_bind retries 0); [apply acts_privateRequest|].
  intros [t|o|os|ss|]; try apply acts_throw. apply acts_ret.
Qed.

Lemma acts_getContractInfo (depth : nat) (contract : string) (retries : nat) :
  acts 0 (getContractInfo depth contract retries).
Proof.
  unfold getContractInfo.
  apply (acts_catch 0 0); [|intros e; apply acts_throw].
  apply (acts_bind 0 0); [apply acts_publicRequest|].
  intros [t|o|os|ss|]; try apply acts_throw.
  destruct (find _ ss); [apply acts_ret | apply acts_throw].
Qed.

(** Whatever the exchange answers, a private request calls the signer at
    most [retries] times, and an unsigned request or a resynchronisation
    never calls it; none of them touches the order cache, takes back a
    reading of the clock or an outcome of the network, or removes anything
    from the log. *)
Theorem transport_bounded
    (depth retries : nat) (endpoint method : string) (params : Params) (w : World) :
  advances retries w (snd (privateRequest depth endpoint params method retries w))
  /\ advances 0 w (snd (publicRequest depth endpoint params retries w))
  /\ advances 0 w (snd (syncServerTime depth w)).
Proof.
  split; [apply acts_privateRequest|].
  split; [apply acts_publicRequest | apply acts_syncServerTime].
Qed.

End TransportFacts.

(** ** Retry loops: exhaustion, terminal errors and what is re-sent *)

Module RetryFacts.

Import Adapter Operations Scenarios ClockFacts TransportFacts.
Open Scope string_scope.
Open Scope Z_scope.

(** One iteration of the monadic code on an explicit world, the loops
    themselves left folded. *)
Ltac exec1 :=
  cbv beta iota zeta delta
    [getServerTime generateSignature fetch sleep emit now get modify
     bind catch ret throw isTimeout
     set_timeOffset set_lastSyncTime set_syncPromise set_orderCache
     set_ticks set_network set_log
     timeOffset lastSyncTime syncPromise orderCache clock ticks network log
     CLOCK_DRIFT Z.eqb Pos.eqb andb fst snd].

(** The signed loop on a network that rejects every remaining attempt. *)
Lemma signedAttempts_all_rejected (sync : M unit) (endpoint method : string)
    (params : Params) (retries : nat) (rest : list FetchOutcome) (t : bool)
    (ts : list bool) :
  forall w : World,
    (length ts < retries)%nat ->
    network w = (map Rejected (ts ++ [t]) ++ rest)%list ->
    exists w' : World,
      signedAttempts sync endpoint params method retries (S (length ts)) w
      = (Throw (FetchError t), w')
      /\ network w' = rest
      /\ timeOffset w' = timeOffset w
      /\ lastSyncTime w' = lastSyncTime w
      /\ clock w' = clock w
      /\ ticks w' = (ticks w + S (length ts))%nat
      /\ signedTimestamps (log w')
         = (signedTimestamps (log w)
            ++ map (fun i => clock w i + timeOffset w) (seq (ticks w) (S (length ts))))%list.
Proof.
  induction ts as [|t0 ts IH]; intros w Hlt Hnet;
    destruct w as [off last sp cache clk k net lg];
    cbn [network ticks clock timeOffset lastSyncTime log] in *; subst net.
  - cbn [length signedAttempts app map].
    rewrite Nat.sub_0_r, Nat.eqb_refl. exec1.
    eexists. split; [reflexivity|]. cbn [network timeOffset lastSyncTime clock ticks log].
    repeat (split; [first [reflexivity | lia]|]).
    rewrite <- app_assoc, signedTimestamps_app. f_equal.
    cbn [app signedTimestamps seq map].
    fold (signedData params (clk k + off)).
    now rewrite timestampOf_signedData.
  - cbn [length] in *. remember (S (length ts)) as r eqn:Hr.
    cbn [signedAttempts app map].
    assert (Hne : ((retries - r) =? retries)%nat = false)
      by (apply Nat.eqb_neq; lia).
    rewrite Hne. exec1.
    match goal with
    | |- context [signedAttempts sync endpoint params method retries r ?w1] =>
      destruct (IH w1) as (w' & Hrun & Hn & Ho & Hl & Hc & Ht & Hs);
        [lia | reflexivity |]
    end.
    rewrite Hrun.
    cbn [network timeOffset lastSyncTime clock ticks log] in *.
    exists w'. split; [reflexivity|].
    split; [exact Hn|]. split; [exact Ho|]. split; [exact Hl|]. split; [exact Hc|].
    split; [change (ticks w' = (k + S r)%nat); lia|].
    change (signedTimestamps (log w')
            = (signedTimestamps lg ++ map (fun i => clk i + off) (seq k (S r)))%list).
    rewrite Hs, <- !app_assoc, !signedTimestamps_app, <- !app_assoc. f_equal.
    cbn [app signedTimestamps seq map].
    fold (signedData params (clk k + off)).
    rewrite timestampOf_signedData. reflexivity.
Qed.

(** When the network rejects [retries] attempts in a row, the signed
    request is attempted exactly [retries] times, each attempt signed with
    a reading of the clock of its own, the rejection of the last attempt is
    what the caller gets, and the stored offset is untouched. *)
Theorem handleSignedRequest_exhausted
    (depth : nat) (endpoint method : string) (params : Params)
    (w : World) (ts : list bool) (t : bool) (rest : list FetchOutcome) :
  network w = (map Rejected (ts ++ [t]) ++ rest)%list ->
  exists w' : World,
    handleSignedRequest depth endpoint params method (S (length ts)) w
    = (Throw (FetchError t), w')
    /\ network w' = rest
    /\ timeOffset w' = timeOffset w
    /\ signedTimestamps (log w')
       = (signedTimestamps (log w)
          ++ map (fun i => clock w i + timeOffset w) (seq (ticks w) (S (length ts))))%list.
Proof.
  intros Hnet. unfold handleSignedRequest.
  destruct (signedAttempts_all_rejected (syncServerTime depth) endpoint method
              params (S (length ts)) rest t ts w) as (w' & Hrun & Hn & Ho & _ & _ & _ & Hs);
    [lia | exact Hnet |].
  exists w'. auto.
Qed.

Lemma handleSignedRequest_exhausted_witness :
  exists w' : World,
    handleSignedRequest 1 "/fapi/v1/order" [] "GET" 2 stale_world
    = (Throw (FetchError false), w')
    /\ network w' = []
    /\ signedTimestamps (log w') = [day + 1000; day + 1001].
Proof.
  destruct (handleSignedRequest_exhausted 1 "/fapi/v1/order" "GET" [] stale_world
              [false] false []) as (w' & Hrun & Hn & _ & Hs);
    [reflexivity|].
  exists w'. split; [exact Hrun|]. split; [exact Hn | exact Hs].
Defined.

(** The same, with conditions on codes and attempt numbers left standing,
    to be rewritten. *)
Ltac exec2 :=
  cbv beta iota zeta delta
    [getServerTime generateSignature fetch sleep emit now get modify
     bind catch ret throw isTimeout
     set_timeOffset set_lastSyncTime set_syncPromise set_orderCache
     set_ticks set_network set_log
     timeOffset lastSyncTime syncPromise orderCache clock ticks network log
     refusal fst snd].

(** The signed loop on a network that answers every remaining attempt with
    an error of the exchange, none but the last of them being clock
    drift. *)
Lemma signedAttempts_all_refused (sync : M unit) (endpoint method : string)
    (params : Params) (retries : nat) (rest : list FetchOutcome)
    (code : Z) (msg : string) (errs : list (Z * string)) :
  forall w : World,
    (length errs < retries)%nat ->
    Forall (fun cm => fst cm <> CLOCK_DRIFT) errs ->
    network w = (map refusal (errs ++ [(code, msg)]) ++ rest)%list ->
    exists w' : World,
      signedAttempts sync endpoint params method retries (S (length errs)) w
      = (Throw (ApiError msg), w')
      /\ network w' = rest
      /\ timeOffset w' = timeOffset w
      /\ lastSyncTime w' = lastSyncTime w
      /\ clock w' = clock w
      /\ ticks w' = (ticks w + S (length errs))%nat
      /\ signedTimestamps (log w')
         = (signedTimestamps (log w)
            ++ map (fun i => clock w i + timeOffset w) (seq (ticks w) (S (length errs))))%list.
Proof.
  induction errs as [|[c0 m0] errs IH]; intros w Hlt Hcodes Hnet;
    destruct w as [off last sp cache clk k net lg];
    cbn [network ticks clock timeOffset lastSyncTime log] in *; subst net.
  - cbn [length signedAttempts app map refusal fst snd].
    rewrite Nat.sub_0_r, Nat.eqb_refl, Nat.ltb_irrefl. exec2.
    rewrite andb_false_r. exec2.
    eexists. split; [reflexivity|]. cbn [network timeOffset lastSyncTime clock ticks log].
    repeat (split; [first [reflexivity | lia]|]).
    rewrite <- app_assoc, signedTimestamps_app. f_equal.
    cbn [app signedTimestamps seq map].
    fold (signedData params (clk k + off)).
    now rewrite timestampOf_signedData.
  - cbn [length] in *. remember (S (length errs)) as r eqn:Hr.
    apply Forall_cons_iff in Hcodes as [Hc0 Hcodes'].
    cbn [fst] in Hc0. apply Z.eqb_neq in Hc0.
    cbn [signedAttempts app map refusal fst snd].
    assert (Hne : ((retries - r) =? retries)%nat = false)
      by (apply Nat.eqb_neq; lia).
    rewrite Hne. exec2. rewrite Hc0. cbn [andb]. exec2.
    match goal with
    | |- context [signedAttempts sync endpoint params method retries r ?w1] =>
      destruct (IH w1) as (w' & Hrun & Hn & Ho & Hl & Hc & Ht & Hs);
        [lia | assumption | reflexivity |]
    end.
    rewrite Hrun.
    cbn [network timeOffset lastSyncTime clock ticks log] in *.
    exists w'. split; [reflexivity|].
    split; [exact Hn|]. split; [exact Ho|]. split; [exact Hl|]. split; [exact Hc|].
    split; [change (ticks w' = (k + S r)%nat); lia|].
    change (signedTimestamps (log w')
            = (signedTimestamps lg ++ map (fun i => clk i + off) (seq k (S r)))%list).
    rewrite Hs, <- !app_assoc, !signedTimestamps_app, <- !app_assoc. f_equal.
    cbn [app signedTimestamps seq map].
    fold (signedData params (clk k + off)).
    rewrite timestampOf_signedData. reflexivity.
Qed.

(** When the exchange refuses every attempt, the request is signed and sent
    anew [retries] times, errors other than clock drift included; the
    message of the last refusal is what the caller gets, and a refusal of
    the last attempt is followed by no resynchronisation even when its
    code is clock drift. *)
Theorem handleSignedRequest_refused
    (depth : nat) (endpoint method : string) (params : Params) (w : World)
    (errs : list (Z * string)) (code : Z) (msg : string) (rest : list FetchOutcome) :
  Forall (fun cm => fst cm <> CLOCK_DRIFT) errs ->
  network w = (map refusal (errs ++ [(code, msg)]) ++ rest)%list ->
  exists w' : World,
    handleSignedRequest depth endpoint params method (S (length errs)) w
    = (Throw (ApiError msg), w')
    /\ network w' = rest
    /\ timeOffset w' = timeOffset w
    /\ lastSyncTime w' = lastSyncTime w
    /\ ticks w' = (ticks w + S (length errs))%nat
    /\ signedTimestamps (log w')
       = (signedTimestamps (log w)
          ++ map (fun i => clock w i + timeOffset w) (seq (ticks w) (S (length errs))))%list.
Proof.
  intros Hcodes Hnet. unfold handleSignedRequest.
  destruct (signedAttempts_all_refused (syncServerTime depth) endpoint method
              params (S (length errs)) rest code msg errs w)
    as (w' & Hrun & Hn & Ho & Hl & _ & Ht & Hs);
    [lia | exact Hcodes | exact Hnet |].
  exists w'. auto 10.
Qed.

Lemma handleSignedRequest_refused_witness :
  exists w' : World,
    handleSignedRequest 1 "/fapi/v1/order" [] "POST" 2
      (world 0 0 [] (readings [10; 20; 30])
         [HttpError (-2019) "Margin is insufficient.";
          HttpError CLOCK_DRIFT "Timestamp for this request is outside of the recvWindow."])
    = (Throw (ApiError "Timestamp for this request is outside of the recvWindow."), w')
    /\ network w' = []
    /\ timeOffset w' = 0
    /\ signedTimestamps (log w') = [10; 20].
Proof.
  destruct (handleSignedRequest_refused 1 "/fapi/v1/order" "POST" []
              (world 0 0 [] (readings [10; 20; 30])
                 [HttpError (-2019) "Margin is insufficient.";
                  HttpError CLOCK_DRIFT "Timestamp for this request is outside of the recvWindow."])
              [(-2019, "Margin is insufficient.")] CLOCK_DRIFT
              "Timestamp for this request is outside of the recvWindow." [])
    as (w' & Hrun & Hn & Ho & _ & _ & Hs).
  - constructor; [discriminate | constructor].
  - reflexivity.
  - exists w'. split; [exact Hrun|]. split; [exact Hn|]. split; [exact Ho | exact Hs].
Defined.

(** The signed loop on a network that rejects some attempts, fewer than
    remain, and then answers. *)
Lemma signedAttempts_recovers (sync : M unit) (endpoint method : string)
    (params : Params) (retries : nat) (rest : list FetchOutcome) (body : Body)
    (ts : list bool) :
  forall (rem : nat) (w : World),
    (length ts <= rem)%nat -> (S rem <= retries)%nat ->
    network w = (map Rejected ts ++ HttpOk body :: rest)%list ->
    exists w' : World,
      signedAttempts sync endpoint params method retries (S rem) w = (Ok body, w')
      /\ network w' = rest
      /\ timeOffset w' = timeOffset w
      /\ lastSyncTime w' = lastSyncTime w
      /\ orderCache w' = orderCache w
      /\ clock w' = clock w
      /\ ticks w' = (ticks w + S (length ts))%nat
      /\ signedTimestamps (log w')
         = (signedTimestamps (log w)
            ++ map (fun i => clock w i + timeOffset w) (seq (ticks w) (S (length ts))))%list.
Proof.
  induction ts as [|t0 ts IH]; intros rem w Hlen Hrem Hnet;
    destruct w as [off last sp cache clk k net lg];
    cbn [network ticks clock timeOffset lastSyncTime orderCache log] in *; subst net.
  - cbn [length signedAttempts app map]. exec2.
    eexists. split; [reflexivity|].
    cbn [network timeOffset lastSyncTime orderCache clock ticks log].
    repeat (split; [first [reflexivity | lia]|]).
    rewrite <- app_assoc, signedTimestamps_app. f_equal.
    cbn [app signedTimestamps seq map].
    fold (signedData params (clk k + off)).
    now rewrite timestampOf_signedData.
  - cbn [length] in *. destruct rem as [|r]; [lia|].
    remember (S r) as r1 eqn:Hr.
    cbn [signedAttempts app map].
    assert (Hne : ((retries - r1) =? retries)%nat = false)
      by (apply Nat.eqb_neq; lia).
    rewrite Hne. exec2. rewrite Hr.
    match goal with
    | |- context [signedAttempts sync endpoint params method retries (S r) ?w1] =>
      destruct (IH r w1) as (w' & Hrun & Hn & Ho & Hl & Hca & Hc & Ht & Hs);
        [lia | lia | reflexivity |]
    end.
    rewrite Hrun.
    cbn [network timeOffset lastSyncTime orderCache clock ticks log] in *.
    exists w'. split; [reflexivity|].
    split; [exact Hn|]. split; [exact Ho|]. split; [exact Hl|].
    split; [exact Hca|]. split; [exact Hc|].
    split; [change (ticks w' = (k + S (S (length ts)))%nat); lia|].
    change (signedTimestamps (log w')
            = (signedTimestamps lg
               ++ map (fun i => clk i + off) (seq k (S (S (length ts)))))%list).
    rewrite Hs, <- !app_assoc, !signedTimestamps_app, <- !app_assoc. f_equal.
    cbn [app signedTimestamps seq map].
    fold (signedData params (clk k + off)).
    rewrite timestampOf_signedData. reflexivity.
Qed.

(** Transient failures are absorbed: when the network rejects fewer
    attempts than are allowed and then answers, the signed request returns
    that answer, having been signed and sent once per rejection and once
    more, each time with a reading of the clock of its own; the order cache
    and the stored offset are untouched. *)
Theorem handleSignedRequest_recovers
    (depth retries : nat) (endpoint method : string) (params : Params) (w : World)
    (ts : list bool) (body : Body) (rest : list FetchOutcome) :
  (length ts < retries)%nat ->
  network w = (map Rejected ts ++ HttpOk body :: rest)%list ->
  exists w' : World,
    handleSignedRequest depth endpoint params method retries w = (Ok body, w')
    /\ network w' = rest
    /\ timeOffset w' = timeOffset w
    /\ orderCache w' = orderCache w
    /\ ticks w' = (ticks w + S (length ts))%nat
    /\ signedTimestamps (log w')
       = (signedTimestamps (log w)
          ++ map (fun i => clock w i + timeOffset w) (seq (ticks w) (S (length ts))))%list.
Proof.
  intros Hlen Hnet. unfold handleSignedRequest.
  destruct retries as [|rem]; [lia|].
  destruct (signedAttempts_recovers (syncServerTime depth) endpoint method
              params (S rem) rest body ts rem w)
    as (w' & Hrun & Hn & Ho & _ & Hca & _ & Ht & Hs);
    [lia | lia | exact Hnet |].
  exists w'. auto 10.
Qed.

Lemma handleSignedRequest_recovers_witness :
  exists w' : World,
    handleSignedRequest 1 "/fapi/v1/openOrders" [] "GET" 3
      (world 0 0 [] (readings [10; 20; 30])
         [Rejected true; Rejected false; HttpOk (OrdersBody [])])
    = (Ok (OrdersBody []), w')
    /\ network w' = []
    /\ signedTimestamps (log w') = [10; 20; 30].
Proof.
  destruct (handleSignedRequest_recovers 1 3 "/fapi/v1/openOrders" "GET" []
              (world 0 0 [] (readings [10; 20; 30])
                 [Rejected true; Rejected false; HttpOk (OrdersBody [])])
              [true; false] (OrdersBody []) [])
    as (w' & Hrun & Hn & _ & _ & _ & Hs).
  - simpl. lia.
  - reflexivity.
  - exists w'. split; [exact Hrun|]. split; [exact Hn | exact Hs].
Defined.

(** A synchronisation whose time query is rejected three times fails with
    the last rejection after exactly three queries, sent with the timeouts
    15000, 20000 and 25000 ms and separated by the pauses of the retry
    loop; the stored offset and the time of the last synchronisation stay
    as they were. *)
Theorem syncServerTime_fails_stale
    (depth : nat) (w : World) (t1 t2 t3 : bool) (rest : list FetchOutcome) :
  network w = Rejected t1 :: Rejected t2 :: Rejected t3 :: rest ->
  exists w' : World,
    syncServerTime (S depth) w = (Throw (FetchError t3), w')
    /\ timeOffset w' = timeOffset w
    /\ lastSyncTime w' = lastSyncTime w
    /\ orderCache w' = orderCache w
    /\ network w' = rest
    /\ log w' =
       (log w ++
        [SyncStarted;
         Fetched "/fapi/v1/time" "GET" [] 15000;
         Slept (if t1 then 2000 else 1000);
         Fetched "/fapi/v1/time" "GET" [] 20000;
         Slept (if t2 then 4000 else 2000);
         Fetched "/fapi/v1/time" "GET" [] 25000])%list.
Proof.
  intros Hnet. destruct w as [off last sp cache clk k net lg].
  cbn [network timeOffset lastSyncTime orderCache log] in *. subst net.
  rewrite syncServerTime_unfold. unfold querying, publicRequest, handleRequest.
  cbn [requestAttempts]. exec2.
  cbn [Nat.sub Nat.eqb]. exec2.
  eexists. split; [reflexivity|].
  cbn [timeOffset lastSyncTime orderCache network log].
  repeat (split; [reflexivity|]).
  rewrite <- !app_assoc. cbn [app].
  destruct t1, t2; reflexivity.
Qed.

Lemma syncServerTime_fails_stale_witness :
  exists w' : World,
    syncServerTime 1
      (world 42 7 [] (readings [10]) [Rejected true; Rejected false; Rejected true])
    = (Throw (FetchError true), w')
    /\ timeOffset w' = 42 /\ lastSyncTime w' = 7.
Proof.
  destruct (syncServerTime_fails_stale 0
              (world 42 7 [] (readings [10]) [Rejected true; Rejected false; Rejected true])
              true false true [])
    as (w' & Hrun & Ho & Hl & _); [reflexivity|].
  exists w'. split; [exact Hrun|]. split; [exact Ho | exact Hl].
Defined.

End RetryFacts.

(** ** Synchronisation before signing *)

Module SyncFacts.

Import Adapter Operations Scenarios ClockFacts TransportFacts RetryFacts.
Open Scope string_scope.
Open Scope Z_scope.

(** A private request made when the last synchronisation is older than the
    resynchronisation interval first resynchronises, and is then signed
    with the offset just stored, not with the stale one. *)
Theorem privateRequest_resyncs_when_stale
    (depth retries : nat) (endpoint method : string) (params : Params)
    (w : World) (S : Z) (body : Body) (rest : list FetchOutcome) :
  (1 <= retries)%nat ->
  syncPromise w = None ->
  clock w (ticks w) - lastSyncTime w > RESYNC_INTERVAL ->
  network w = HttpOk (TimeBody S) :: HttpOk body :: rest ->
  let n := ticks w in
  let T0 := clock w (n + 1) in
  let T1 := clock w (n + 2) in
  let offset := (S + (T1 - T0) / 2 - T1) - SAFETY_MARGIN_MS in
  exists w' : World,
    privateRequest (Datatypes.S depth) endpoint params method retries w = (Ok body, w')
    /\ timeOffset w' = offset
    /\ lastSyncTime w' = clock w (n + 3)
    /\ signedTimestamps (log w')
       = (signedTimestamps (log w) ++ [clock w (n + 4) + offset])%list
    /\ network w' = rest.
Proof.
  intros Hretries Hsp Hstale Hnet n T0 T1 offset.
  destruct retries as [|r]; [lia|].
  destruct w as [off last sp cache clk k net lg].
  cbn [network ticks clock timeOffset lastSyncTime syncPromise log] in *.
  subst net sp.
  apply Z.gt_lt, Z.gtb_lt in Hstale.
  unfold privateRequest, ensureTimeSynced. exec2. rewrite Hstale.
  rewrite syncServerTime_unfold. unfold querying, publicRequest, handleRequest.
  cbn [requestAttempts]. exec2.
  unfold handleSignedRequest. cbn [signedAttempts]. exec2.
  eexists. split; [reflexivity|].
  cbn [timeOffset lastSyncTime network log].
  subst offset T1 T0 n.
  replace (k + 1)%nat with (Datatypes.S k) by lia.
  replace (k + 2)%nat with (Datatypes.S (Datatypes.S k)) by lia.
  replace (k + 3)%nat with (Datatypes.S (Datatypes.S (Datatypes.S k))) by lia.
  replace (k + 4)%nat
    with (Datatypes.S (Datatypes.S (Datatypes.S (Datatypes.S k)))) by lia.
  split; [reflexivity|]. split; [reflexivity|]. split; [|reflexivity].
  rewrite <- !app_assoc, signedTimestamps_app. f_equal.
  cbn [app signedTimestamps].
  match goal with
  | |- context [assocSet "timestamp" (PInt ?t) params] =>
    fold (signedData params t)
  end.
  now rewrite timestampOf_signedData.
Qed.

Lemma privateRequest_resyncs_when_stale_witness :
  exists w' : World,
    privateRequest 1 "/fapi/v2/account" [] "GET" 2
      (world 0 0 [] (readings [200000; 200010; 200110; 200111; 200120])
         [HttpOk (TimeBody 207000); HttpOk OtherBody])
    = (Ok OtherBody, w')
    /\ timeOffset w' = 4940
    /\ signedTimestamps (log w') = [205060].
Proof.
  destruct (privateRequest_resyncs_when_stale 0 2 "/fapi/v2/account" "GET" []
              (world 0 0 [] (readings [200000; 200010; 200110; 200111; 200120])
                 [HttpOk (TimeBody 207000); HttpOk OtherBody])
              207000 OtherBody [])
    as (w' & Hrun & Ho & _ & Hs & _).
  - lia.
  - reflexivity.
  - vm_compute. reflexivity.
  - reflexivity.
  - exists w'. split; [exact Hrun|]. split; [exact Ho | exact Hs].
Defined.

(** The first private request after the constructor's synchronisation has
    succeeded only clears [syncPromise]: however old that synchronisation
    is by then, no time query is sent and the request is signed with the
    offset stored at construction. *)
Theorem first_request_skips_staleness_check
    (depth retries : nat) (endpoint method : string) (params : Params)
    (w : World) (body : Body) (rest : list FetchOutcome) :
  (1 <= retries)%nat ->
  syncPromise w = Some (Ok tt) ->
  network w = HttpOk body :: rest ->
  exists w' : World,
    privateRequest depth endpoint params method retries w = (Ok body, w')
    /\ syncPromise w' = None
    /\ timeOffset w' = timeOffset w
    /\ lastSyncTime w' = lastSyncTime w
    /\ network w' = rest
    /\ signedTimestamps (log w')
       = (signedTimestamps (log w) ++ [clock w (ticks w) + timeOffset w])%list.
Proof.
  intros Hretries Hsp Hnet.
  destruct retries as [|r]; [lia|].
  destruct w as [off last sp cache clk k net lg].
  cbn [network ticks clock timeOffset lastSyncTime syncPromise log] in *.
  subst net sp.
  unfold privateRequest, ensureTimeSynced. exec2.
  unfold handleSignedRequest. cbn [signedAttempts]. exec2.
  eexists. split; [reflexivity|].
  cbn [timeOffset lastSyncTime syncPromise network log].
  repeat (split; [reflexivity|]).
  rewrite <- !app_assoc, signedTimestamps_app. f_equal.
  cbn [app signedTimestamps].
  fold (signedData params (clk k + off)).
  now rewrite timestampOf_signedData.
Qed.

Lemma first_request_skips_staleness_check_witness :
  exists w' : World,
    privateRequest 1 "/fapi/v2/account" [] "GET" 2
      (set_syncPromise (Some (Ok tt))
         (world (-50) 0 [] (readings [86400000]) [HttpOk OtherBody]))
    = (Ok OtherBody, w')
    /\ syncPromise w' = None
    /\ lastSyncTime w' = 0
    /\ signedTimestamps (log w') = [86399950].
Proof.
  destruct (first_request_skips_staleness_check 1 2 "/fapi/v2/account" "GET" []
              (set_syncPromise (Some (Ok tt))
                 (world (-50) 0 [] (readings [86400000]) [HttpOk OtherBody]))
              OtherBody [])
    as (w' & Hrun & Hsp & _ & Hl & _ & Hs).
  - lia.
  - reflexivity.
  - reflexivity.
  - exists w'. split; [exact Hrun|]. split; [exact Hsp|]. split; [exact Hl | exact Hs].
Defined.

(** A first synchronisation that failed is never tried again: the
    constructor keeps its rejected promise, and from then on every private
    request, and so every listing of open orders and every cancellation,
    fails with the error of that synchronisation without sending anything
    and without changing the client. *)
Theorem failed_first_sync_is_final
    (depth : nat) (w w1 : World) (e : Error) :
  syncServerTime depth w = (Throw e, w1) ->
  construct depth w = (Ok tt, set_syncPromise (Some (Throw e)) w1)
  /\ forall later : World,
       syncPromise later = Some (Throw e) ->
       (forall endpoint params method retries,
          privateRequest depth endpoint params method retries later = (Throw e, later))
       /\ (forall contract retries,
             getOpenOrders depth contract retries later = (Throw e, later))
       /\ (forall orderId, cancelOrder depth orderId later = (Throw e, later)).
Proof.
  intros Hsync. split.
  - unfold construct. now rewrite Hsync.
  - intros later Hsp.
    assert (Hpriv : forall endpoint params method retries,
              privateRequest depth endpoint params method retries later
              = (Throw e, later)).
    { intros. unfold privateRequest, ensureTimeSynced, bind, get. now rewrite Hsp. }
    assert (Hopen : forall contract retries,
              getOpenOrders depth contract retries later = (Throw e, later)).
    { intros. unfold getOpenOrders, catch. unfold bind at 1. now rewrite Hpriv. }
    split; [exact Hpriv|]. split; [exact Hopen|].
    intros orderId. unfold cancelOrder, catch. unfold bind at 1.
    now rewrite Hopen.
Qed.

Lemma failed_first_sync_is_final_witness :
  construct 1 (world 0 0 [] (readings [10]) [])
  = (Ok tt,
     set_syncPromise (Some (Throw (FetchError false)))
       (snd (syncServerTime 1 (world 0 0 [] (readings [10]) [])))).
Proof.
  apply (failed_first_sync_is_final 1 (world 0 0 [] (readings [10]) [])
           (snd (syncServerTime 1 (world 0 0 [] (readings [10]) [])))
           (FetchError false)).
  vm_compute. reflexivity.
Defined.

End SyncFacts.

(** ** Order cache: insertion, lookup and the stability of the sweep *)

Module CacheMoreFacts.

Import Adapter Operations Scenarios ClockFacts CacheFacts TransportFacts.
Open Scope string_scope.
Open Scope Z_scope.

Lemma keys_assocSet (k : string) (v : CacheEntry) (m : Cache) :
  keys (assocSet k v m)
  = if existsb (String.eqb k) (keys m) then keys m else (keys m ++ [k])%list.
Proof.
  unfold keys. induction m as [|[k' v'] m IH]; cbn [assocSet map existsb fst app].
  - reflexivity.
  - destruct (String.eqb_spec k k') as [->|Hne]; cbn [map fst orb].
    + reflexivity.
    + rewrite IH. now destruct (existsb (String.eqb k) (map fst m)).
Qed.

Lemma assocSet_NoDup (k : string) (v : CacheEntry) (m : Cache) :
  NoDup (keys m) -> NoDup (keys (assocSet k v m)).
Proof.
  intros Hnd. rewrite keys_assocSet.
  destruct (existsb (String.eqb k) (keys m)) eqn:E; [assumption|].
  apply NoDup_app; [assumption | repeat constructor; intros [] |].
  intros a Ha [Heq|[]]. subst a.
  assert (existsb (String.eqb k) (keys m) = true); [|congruence].
  apply existsb_exists. exists k. split; [assumption | apply String.eqb_refl].
Qed.

Lemma assocSet_length (k : string) (v : CacheEntry) (m : Cache) :
  length (assocSet k v m)
  = if existsb (String.eqb k) (keys m) then length m else S (length m).
Proof.
  pose proof (f_equal (@length string) (keys_assocSet k v m)) as H.
  unfold keys in H. rewrite length_map in H. rewrite H.
  destruct (existsb _ _); [now rewrite length_map|].
  rewrite length_app, length_map. simpl. lia.
Qed.

Lemma assocGet_filter (f : string * CacheEntry -> bool) (k : string)
    (v : CacheEntry) (m : Cache) :
  assocGet k m = Some v -> f (k, v) = true -> assocGet k (filter f m) = Some v.
Proof.
  intros Hget Hf. induction m as [|[k' v'] m IH]; [discriminate|].
  cbn [assocGet] in Hget. cbn [filter].
  destruct (String.eqb_spec k k') as [<-|Hne].
  - injection Hget as ->. rewrite Hf. cbn [assocGet]. now rewrite String.eqb_refl.
  - destruct (f (k', v')); [|now apply IH].
    cbn [assocGet]. destruct (String.eqb_spec k k'); [congruence | now apply IH].
Qed.

(** Remembering an order and looking it up: the entry found is the one
    just written, stamped with the reading of the clock; every other order
    is found as before; the keys stay distinct; and the cache grows by one
    entry exactly when the order was not in it. *)
Theorem remember_lookup
    (orderId contract : string) (info : OrderResponse) (w : World) :
  fst (remember orderId contract info w) = Ok tt
  /\ assocGet orderId (orderCache (snd (remember orderId contract info w)))
     = Some {| entryContract := contract; orderInfo := info;
               timestamp := clock w (ticks w) |}
  /\ (forall other, String.eqb other orderId = false ->
        assocGet other (orderCache (snd (remember orderId contract info w)))
        = assocGet other (orderCache w))
  /\ (NoDup (keys (orderCache w)) ->
      NoDup (keys (orderCache (snd (remember orderId contract info w)))))
  /\ length (orderCache (snd (remember orderId contract info w)))
     = match assocGet orderId (orderCache w) with
       | Some _ => length (orderCache w)
       | None => S (length (orderCache w))
       end.
Proof.
  destruct w as [off last sp cache clk k net lg].
  unfold remember, bind, now, modify.
  cbn [fst snd orderCache set_orderCache set_ticks clock ticks].
  split; [reflexivity|].
  split; [apply assocGet_assocSet_same|].
  split; [intros other Hne; now apply assocGet_assocSet_other|].
  split; [apply assocSet_NoDup|].
  rewrite assocSet_length.
  assert (H : existsb (String.eqb orderId) (keys cache)
              = match assocGet orderId cache with Some _ => true | None => false end).
  { unfold keys. induction cache as [|[k' v'] c IH]; [reflexivity|].
    cbn [map fst existsb assocGet].
    destruct (String.eqb orderId k'); [reflexivity | exact IH]. }
  rewrite H. now destruct (assocGet orderId cache).
Qed.

Lemma cleanupCacheAt_bounded (now : Z) (c : Cache) :
  NoDup (keys c) ->
  NoDup (keys (cleanupCacheAt now c))
  /\ (length (cleanupCacheAt now c) <= MAX_CACHE_SIZE)%nat
  /\ exists keep : string * CacheEntry -> bool, cleanupCacheAt now c = filter keep c.
Proof.
  intros Hnd.
  pose proof (cleanupCacheAt_unfold now c Hnd) as Hun. cbv zeta in Hun.
  set (kept := filter (unexpired now) c) in *.
  assert (Hkeys : NoDup (keys kept)) by now apply keys_filter_NoDup.
  destruct (MAX_CACHE_SIZE <? length kept)%nat eqn:E.
  - apply Nat.ltb_lt in E. rewrite Hun.
    set (n := (length kept - MAX_CACHE_SIZE)%nat).
    set (sorted := sortByTimestamp kept).
    split; [now apply keys_filter_NoDup|].
    split.
    + assert (Hsplit : Permutation kept (firstn n sorted ++ skipn n sorted)).
      { rewrite firstn_skipn. apply sortByTimestamp_perm. }
      pose proof (delete_part kept (firstn n sorted) (skipn n sorted) Hkeys Hsplit)
        as Hrest.
      rewrite (Permutation_length Hrest), length_skipn.
      unfold sorted. rewrite <- (Permutation_length (sortByTimestamp_perm kept)).
      unfold n. lia.
    + eexists. unfold kept. rewrite filter_filter. reflexivity.
  - apply Nat.ltb_ge in E. rewrite Hun.
    split; [assumption|]. split; [assumption|]. now exists (unexpired now).
Qed.

(** What a sweep leaves is stable: the keys are distinct, there are at most
    [MAX_CACHE_SIZE] entries, they are entries of the cache swept, in their
    order of insertion, and a second sweep at the same time removes
    nothing. *)
Theorem sweep_is_stable (now : Z) (c : Cache) :
  NoDup (keys c) ->
  NoDup (keys (cleanupCacheAt now c))
  /\ (length (cleanupCacheAt now c) <= MAX_CACHE_SIZE)%nat
  /\ (exists keep : string * CacheEntry -> bool,
        cleanupCacheAt now c = filter keep c)
  /\ cleanupCacheAt now (cleanupCacheAt now c) = cleanupCacheAt now c.
Proof.
  intros Hnd.
  destruct (cleanupCacheAt_bounded now c Hnd) as (Hnd' & Hlen & Hkeep).
  split; [exact Hnd'|]. split; [exact Hlen|]. split; [exact Hkeep|].
  pose proof (cleanupCacheAt_unfold now (cleanupCacheAt now c) Hnd') as Hun.
  cbv zeta in Hun.
  assert (Hall : filter (unexpired now) (cleanupCacheAt now c) = cleanupCacheAt now c).
  { apply forallb_filter_id. apply forallb_forall. intros kv Hin.
    unfold unexpired. apply negb_true_iff.
    exact (OrderFacts.cleanupCacheAt_fresh now c kv Hin). }
  rewrite Hall in Hun. rewrite Hun.
  apply Nat.ltb_ge in Hlen. now rewrite Hlen.
Qed.

Lemma sweep_is_stable_witness :
  NoDup (keys (cleanupCacheAt (CACHE_TTL + 3) (ascending 4)))
  /\ cleanupCacheAt (CACHE_TTL + 3) (cleanupCacheAt (CACHE_TTL + 3) (ascending 4))
     = cleanupCacheAt (CACHE_TTL + 3) (ascending 4).
Proof.
  destruct (sweep_is_stable (CACHE_TTL + 3) (ascending 4)) as (Hnd & _ & _ & Hid).
  - apply distinct_NoDup. vm_compute. reflexivity.
  - split; [exact Hnd | exact Hid].
Defined.

End CacheMoreFacts.

(** ** Orders: what placing, querying and cancelling do to the cache *)

Module OrderMoreFacts.

Import JsString Adapter Operations Scenarios ClockFacts CacheFacts OrderFacts.
Import OperationScenarios TransportFacts CacheMoreFacts.
Open Scope string_scope.
Open Scope Z_scope.

Lemma bind_run {A B : Type} (c : M A) (k : A -> M B) (w : World) :
  bind c k w
  = match c w with
    | (Ok a, w1) => k a w1
    | (Throw e, w1) => (Throw e, w1)
    end.
Proof. unfold bind. now destruct (c w) as [[a|e] w1]. Qed.

Lemma catch_run {A : Type} (c : M A) (h : Error -> M A) (w : World) :
  catch c h w
  = match c w with
    | (Ok a, w1) => (Ok a, w1)
    | (Throw e, w1) => h e w1
    end.
Proof. unfold catch. now destruct (c w) as [[a|e] w1]. Qed.

Lemma acts_catch_ret {A B : Type} (c : M A) (f : A -> B) (d : B) :
  acts 0 c ->
  acts 0 (catch (bind c (fun a => ret (f a))) (fun _ => ret d)).
Proof.
  intros Hc. apply (acts_catch 0 0).
  - apply (acts_bind 0 0); [exact Hc|]. intros a. apply acts_ret.
  - intros e. apply acts_ret.
Qed.

Lemma lowerChar_not_upper (c : ascii) : isUpper (lowerChar c) = false.
Proof. destruct c as [[] [] [] [] [] [] [] []]; reflexivity. Qed.

Lemma lowercase_toLowerCase (s : string) : lowercase (toLowerCase s) = true.
Proof.
  unfold lowercase. induction s as [|c s IH]; [reflexivity|].
  cbn [toLowerCase all_chars]. now rewrite lowerChar_not_upper, IH.
Qed.

(** The two outcomes of [placeOrder]: an error, with the cache as it was,
    or the order, cached at one reading of the clock and the cache swept
    at the next. *)
Lemma placeOrder_run (depth : nat) (params : OrderParams) (retries : nat) (w : World) :
  match placeOrder depth params retries w with
  | (Throw e, w2) => advances retries w w2
  | (Ok r, w') =>
    exists w2 : World,
      advances retries w w2
      /\ contract r = paramContract params
      /\ size r = paramSize params
      /\ lowercase (status r) = true
      /\ orderCache w'
         = cleanupCacheAt (clock w2 (S (ticks w2)))
             (assocSet (id r)
                {| entryContract := paramContract params; orderInfo := r;
                   timestamp := clock w2 (ticks w2) |}
                (orderCache w2))
      /\ log w' = log w2 /\ network w' = network w2
  end.
Proof.
  unfold placeOrder. cbv zeta. rewrite rethrow_run. rewrite bind_run.
  match goal with
  | |- context [catch ?c ?h w] =>
    assert (Hq : advances 0 w (snd (catch c h w)))
      by (apply acts_catch_ret; apply acts_getContractInfo)
  end.
  destruct (catch _ _ w) as [[q|e] w1] eqn:EQ; cbn [snd] in Hq.
  2:{ apply (advances_weaken 0); [lia | exact Hq]. }
  rewrite bind_run.
  match goal with
  | |- context [privateRequest depth ?ep ?data ?m retries w1] =>
    pose proof (acts_privateRequest depth ep data m retries w1) as Hp;
    destruct (privateRequest depth ep data m retries w1) as [[resp|e] w2]
  end; cbn [snd] in Hp.
  2:{ exact (advances_trans 0 retries w w1 w2 Hq Hp). }
  pose proof (advances_trans 0 retries w w1 w2 Hq Hp) as Hw2.
  destruct resp as [t|raw|os|syms|]; try exact Hw2.
  destruct w2 as [off last sp cache clk k net lg].
  cbv beta iota zeta delta [bind remember cleanupCache now modify ret
    set_orderCache set_ticks orderCache clock ticks timeOffset lastSyncTime
    syncPromise network log fst snd].
  eexists. split; [exact Hw2|].
  cbn [contract size status id log network orderCache clock ticks].
  split; [reflexivity|]. split; [reflexivity|].
  split; [|repeat split].
  destruct (String.eqb (rawStatus raw) "FILLED"); [reflexivity|].
  destruct (String.eqb (rawStatus raw) "NEW"); [reflexivity|].
  apply lowercase_toLowerCase.
Qed.

(** [placeOrder] and the cache: when it fails the cache is what it was;
    when it returns the order, the order names the contract and the size
    asked for, its status has no capital letter, the keys of the cache are
    distinct and the cache holds at most [MAX_CACHE_SIZE] orders. *)
Theorem placeOrder_cache_bounded
    (depth : nat) (params : OrderParams) (retries : nat) (w : World) :
  NoDup (keys (orderCache w)) ->
  match placeOrder depth params retries w with
  | (Throw e, w') => orderCache w' = orderCache w
  | (Ok r, w') =>
    contract r = paramContract params
    /\ size r = paramSize params
    /\ lowercase (status r) = true
    /\ NoDup (keys (orderCache w'))
    /\ (length (orderCache w') <= MAX_CACHE_SIZE)%nat
  end.
Proof.
  intros Hnd. pose proof (placeOrder_run depth params retries w) as Hrun.
  destruct (placeOrder depth params retries w) as [[r|e] w'].
  - destruct Hrun as (w2 & Hadv & Hc & Hs & Hl & Hcache & _).
    destruct Hadv as (Hsame & _).
    split; [exact Hc|]. split; [exact Hs|]. split; [exact Hl|].
    rewrite Hcache.
    match goal with
    | |- context [cleanupCacheAt ?t ?c] =>
      destruct (cleanupCacheAt_bounded t c) as (H1 & H2 & _)
    end.
    + apply assocSet_NoDup. now rewrite Hsame.
    + now split.
  - now destruct Hrun as (Hsame & _).
Qed.

Lemma placeOrder_cache_bounded_witness :
  NoDup (keys (orderCache placing_world))
  /\ match placeOrder 1 btc_params 2 placing_world with
     | (Throw e, w') => orderCache w' = orderCache placing_world
     | (Ok r, w') =>
       contract r = paramContract btc_params
       /\ size r = paramSize btc_params
       /\ lowercase (status r) = true
       /\ NoDup (keys (orderCache w'))
       /\ (length (orderCache w') <= MAX_CACHE_SIZE)%nat
     end.
Proof.
  assert (H : NoDup (keys (orderCache placing_world))).
  { apply distinct_NoDup. vm_compute. reflexivity. }
  split; [exact H|].
  exact (placeOrder_cache_bounded 1 btc_params 2 placing_world H).
Defined.

(** An order that [placeOrder] has returned is found in the cache under
    its identifier, with the contract text the caller gave, as long as the
    cache was not full and no two consecutive readings of the clock are
    more than [CACHE_TTL] apart. *)
Theorem placeOrder_then_lookup
    (depth : nat) (params : OrderParams) (retries : nat) (w w' : World)
    (r : OrderResponse) :
  NoDup (keys (orderCache w)) ->
  (length (orderCache w) < MAX_CACHE_SIZE)%nat ->
  (forall i : nat, clock w (S i) - clock w i <= CACHE_TTL) ->
  placeOrder depth params retries w = (Ok r, w') ->
  exists t : Z,
    assocGet (id r) (orderCache w')
    = Some {| entryContract := paramContract params; orderInfo := r;
              timestamp := t |}.
Proof.
  intros Hnd Hlen Hclock Hplace.
  pose proof (placeOrder_run depth params retries w) as Hrun.
  rewrite Hplace in Hrun.
  destruct Hrun as (w2 & Hadv & _ & _ & _ & Hcache & _).
  destruct Hadv as (Hsame & Hclk & _).
  exists (clock w2 (ticks w2)). rewrite Hcache, Hsame, Hclk.
  set (e := {| entryContract := paramContract params; orderInfo := r;
               timestamp := clock w (ticks w2) |}).
  set (c1 := assocSet (id r) e (orderCache w)).
  assert (Hnd1 : NoDup (keys c1)) by now apply assocSet_NoDup.
  pose proof (cleanupCacheAt_unfold (clock w (S (ticks w2))) c1 Hnd1) as Hun.
  cbv zeta in Hun.
  assert (Hsmall : (MAX_CACHE_SIZE
                    <? length (filter (unexpired (clock w (S (ticks w2)))) c1))%nat
                   = false).
  { apply Nat.ltb_ge.
    pose proof (filter_length_le (unexpired (clock w (S (ticks w2)))) c1) as Hf.
    unfold c1 in Hf at 2. rewrite assocSet_length in Hf.
    destruct (existsb _ _) in Hf; lia. }
  rewrite Hsmall in Hun. rewrite Hun.
  apply assocGet_filter; [apply assocGet_assocSet_same|].
  unfold unexpired, expired, e. cbn [snd timestamp].
  apply negb_true_iff. rewrite Z.gtb_ltb. apply Z.ltb_ge. apply Hclock.
Qed.

Lemma placeOrder_then_lookup_witness :
  exists t : Z,
    assocGet "42" (orderCache (snd (placeOrder 1 btc_params 2 placing_world)))
    = Some {| entryContract := "BTC/USDT:USDT";
              orderInfo := {| id := "42"; contract := "BTC/USDT:USDT";
                              size := (12345 # 10000)%Q; price := "50000";
                              status := "finished"; create_time := 1000;
                              fill_price := "50000"; left := 0 |};
              timestamp := t |}.
Proof.
  apply (placeOrder_then_lookup 1 btc_params 2 placing_world
           (snd (placeOrder 1 btc_params 2 placing_world))
           {| id := "42"; contract := "BTC/USDT:USDT";
              size := (12345 # 10000)%Q; price := "50000";
              status := "finished"; create_time := 1000;
              fill_price := "50000"; left := 0 |}).
  - apply distinct_NoDup. vm_compute. reflexivity.
  - vm_compute. lia.
  - intros i. do 5 (destruct i as [|i]; [vm_compute; discriminate|]).
    vm_compute. discriminate.
  - vm_compute. reflexivity.
Defined.

Lemma assocGet_keys (orderId : string) (cached : CacheEntry) (c : Cache) :
  assocGet orderId c = Some cached ->
  existsb (String.eqb orderId) (keys c) = true.
Proof.
  unfold keys. induction c as [|[k v] c IH]; [discriminate|].
  cbn [assocGet map fst existsb].
  destruct (String.eqb orderId k); [reflexivity | exact IH].
Qed.

(** [getOrder] for a cached order never fails: it returns either what the
    exchange answers, mapped with the cached contract text and a status
    without capital letters, and stores that under the identifier asked
    for, or, when the query fails in any way, the cached order, leaving
    the cache as it was.  The set of cached identifiers is the same
    afterwards. *)
Theorem getOrder_cached_never_raises
    (depth : nat) (orderId : string) (w : World) (cached : CacheEntry) :
  assocGet orderId (orderCache w) = Some cached ->
  exists (r : OrderResponse) (w' : World),
    getOrder depth orderId w = (Ok r, w')
    /\ keys (orderCache w') = keys (orderCache w)
    /\ ((r = orderInfo cached /\ orderCache w' = orderCache w)
        \/ (exists (raw : RawOrder) (t : Z),
              r = queriedOrderOf (entryContract cached) raw
              /\ lowercase (status r) = true
              /\ orderCache w'
                 = assocSet orderId
                     {| entryContract := entryContract cached; orderInfo := r;
                        timestamp := t |}
                     (orderCache w))).
Proof.
  intros Hget. unfold getOrder. rewrite rethrow_run, bind_run.
  unfold get at 1. rewrite Hget. cbv beta iota zeta.
  rewrite catch_run, bind_run.
  match goal with
  | |- context [privateRequest depth ?ep ?data ?m 2 w] =>
    pose proof (acts_privateRequest depth ep data m 2 w) as Hp;
    destruct (privateRequest depth ep data m 2 w) as [[resp|e] w1]
  end; cbn [snd] in Hp; destruct Hp as (Hsame & _).
  2:{ exists (orderInfo cached), w1. split; [reflexivity|].
      split; [now rewrite Hsame|]. left. now split. }
  destruct resp as [t|raw|os|syms|];
    try (exists (orderInfo cached), w1; split; [reflexivity|];
         split; [now rewrite Hsame|]; left; now split).
  rewrite <- Hsame in Hget. rewrite <- Hsame. clear Hsame.
  destruct w1 as [off last sp cache clk k net lg].
  cbn [orderCache] in Hget.
  cbv beta iota zeta delta [bind remember now modify ret
    set_orderCache set_ticks orderCache clock ticks timeOffset lastSyncTime
    syncPromise network log fst snd].
  eexists. eexists. split; [reflexivity|].
  cbn [orderCache].
  split.
  - rewrite keys_assocSet. now rewrite (assocGet_keys orderId cached _ Hget).
  - right. exists raw, (clk k). split; [reflexivity|]. split; [|reflexivity].
    cbn [status queriedOrderOf].
    destruct (String.eqb (rawStatus raw) "FILLED"); [reflexivity|].
    destruct (String.eqb (rawStatus raw) "NEW"); [reflexivity|].
    destruct (String.eqb (rawStatus raw) "CANCELED"); [reflexivity|].
    apply lowercase_toLowerCase.
Qed.

Lemma getOrder_cached_never_raises_witness :
  exists (r : OrderResponse) (w' : World),
    getOrder 1 "42" stale_world = (Ok r, w')
    /\ keys (orderCache w') = ["42"].
Proof.
  destruct (getOrder_cached_never_raises 1 "42" stale_world
              {| entryContract := "BTC/USDT:USDT"; orderInfo := old_order;
                 timestamp := 0 |})
    as (r & w' & Hrun & Hkeys & _).
  - reflexivity.
  - exists r, w'. split; [exact Hrun | exact Hkeys].
Defined.

(** *** Cancelling *)






(** [cancelOrder] leaves the order cache as it is, whatever the exchange
    answers: an order that was cancelled stays cached with the status it
    had.  At most five requests are signed, two for the listing and three
    for the cancellation. *)
Theorem cancelOrder_keeps_cache (depth : nat) (orderId : string) (w : World) :
  advances 5 w (snd (cancelOrder depth orderId w)).
Proof.
  revert w. change (acts 5 (cancelOrder depth orderId)). unfold cancelOrder.
  apply (acts_weaken (2 + 3 + 0)); [lia|].
  apply (acts_catch (2 + 3) 0); [|intros e; apply acts_throw].
  apply (acts_bind 2 3); [apply acts_getOpenOrders|]. intros openOrders.
  destruct (find _ openOrders) as [order|].
  - apply (acts_weaken (3 + 0)); [lia|].
    apply (acts_bind 3 0); [apply acts_privateRequest|]. intros _. apply acts_ret.
  - apply (acts_weaken 0); [lia | apply acts_throw].
Qed.

End OrderMoreFacts.

(** ** Quantities, profit and positions *)

Module QuantityFacts.

Import Precision PrecisionFacts.
Open Scope Q_scope.

(** The decimal-place count of a minimum order size [s]: it is 0 from 1
    upwards, and below 1 it is the position of the first significant
    decimal digit of [s], that is [10^-d <= s < 10^(1-d)], so that one unit
    of the flooring is never larger than [s]. *)
Theorem decimalPlaces_brackets (s : Q) :
  0 < s ->
  (0 <= decimalPlaces s)%Z
  /\ (1 <= s -> decimalPlaces s = 0%Z)
  /\ (s < 1 -> pow10 (- decimalPlaces s) <= s < pow10 (1 - decimalPlaces s))
  /\ / pow10 (decimalPlaces s) <= s.
Proof.
  intros Hs. split; [apply decimalPlaces_nonneg|].
  rewrite decimalPlaces_spec.
  destruct (Qle_bool 1 s) eqn:E.
  - apply Qle_bool_iff in E. split; [reflexivity|]. split; [lra|].
    change (pow10 0) with 1. change (/ 1) with 1. exact E.
  - apply Qle_bool_false in E. split; [lra|].
    pose proof (floor_log10_spec s Hs) as [Hlo Hhi].
    rewrite Z.opp_involutive.
    replace (1 - - floor_log10 s)%Z with (floor_log10 s + 1)%Z by lia.
    split; [now split|].
    pose proof (pow10_opp (- floor_log10 s)) as Hinv.
    rewrite Z.opp_involutive in Hinv.
    pose proof (pow10_pos (- floor_log10 s)) as Hp.
    assert (Heq : / pow10 (- floor_log10 s) == pow10 (floor_log10 s)).
    { apply (Qmult_inj_r _ _ (pow10 (- floor_log10 s))); [lra|].
      rewrite Hinv. rewrite Qmult_comm. apply Qmult_inv_r. lra. }
    rewrite Heq. exact Hlo.
Qed.

Lemma decimalPlaces_brackets_witness :
  pow10 (- decimalPlaces (5 # 1000)) <= 5 # 1000 < pow10 (1 - decimalPlaces (5 # 1000)).
Proof.
  apply (decimalPlaces_brackets (5 # 1000)); reflexivity.
Defined.





(** The profit of a long and of a short position over the same prices are
    opposite, there is none when the exit price is the entry price, and a
    long position of positive quantity gains exactly when the price
    rose. *)
Theorem calculatePnl_sides (entryPrice exitPrice quantity : Q) :
  calculatePnl entryPrice exitPrice quantity long
  == - calculatePnl entryPrice exitPrice quantity short
  /\ (forall side : Side, calculatePnl entryPrice entryPrice quantity side == 0)
  /\ (0 < quantity ->
      (0 < calculatePnl entryPrice exitPrice quantity long <-> entryPrice < exitPrice)).
Proof.
  unfold calculatePnl. split; [ring|]. split.
  - intros []; ring.
  - intros Hq. split; intros H; nra.
Qed.



End QuantityFacts.

Module PositionFacts.

Import Adapter Operations PositionScenarios.
Open Scope Q_scope.



End PositionFacts.

(** ** Symbols: the quote asset is always named *)

Module SymbolMoreFacts.

Import JsString JsStringFacts Symbol SymbolFacts.
Open Scope string_scope.

Lemma length_append (a b : string) :
  String.length (a ++ b) = (String.length a + String.length b)%nat.
Proof. induction a as [|c a IH]; simpl; [reflexivity | now rewrite IH]. Qed.

Lemma startsWith_drop (p s : string) :
  startsWith p s = true ->
  (String.length (drop (String.length p) s) + String.length p)%nat = String.length s.
Proof.
  revert s. induction p as [|a p IH]; intros s H; [simpl; lia|].
  destruct s as [|b s]; [discriminate|].
  cbn [startsWith] in H. apply andb_prop in H as [_ H].
  cbn [String.length drop]. specialize (IH s H). lia.
Qed.

(** Replacing an occurrence changes the length by the difference of the
    lengths of the replacement and the pattern. *)
Lemma replace_length (p r s : string) :
  includes p s = true ->
  (String.length (replace p r s) + String.length p)%nat
  = (String.length s + String.length r)%nat.
Proof.
  induction s as [|c s IH]; intros H; rewrite replace_unfold.
  - cbn [includes] in H. rewrite orb_false_r in H. rewrite H.
    rewrite length_append. pose proof (startsWith_drop p "" H). lia.
  - destruct (startsWith p (String c s)) eqn:E.
    + rewrite length_append. pose proof (startsWith_drop p (String c s) E). lia.
    + cbn [includes] in H. rewrite E in H. cbn [orb] in H.
      specialize (IH H). cbn [String.length]. lia.
Qed.

(** Whatever text it is given, [normalizeContract] returns a symbol that
    contains "USDT", namely the text without its separators, with "USDT"
    appended when it had none; and [extractSymbol] returns that symbol
    with one "USDT" taken out, four characters shorter. *)
Theorem normalizeContract_names_quote (s : string) :
  includes "USDT" (normalizeContract s) = true
  /\ (normalizeContract s = strip s \/ normalizeContract s = strip s ++ "USDT")
  /\ (String.length (extractSymbol s) + 4)%nat = String.length (normalizeContract s).
Proof.
  assert (Hinc : includes "USDT" (normalizeContract s) = true).
  { rewrite normalizeContract_stages, complete_spec.
    destruct (includes "USDT" (strip s)) eqn:E; [exact E|].
    apply includes_append_r. }
  split; [exact Hinc|]. split.
  - rewrite normalizeContract_stages, complete_spec.
    destruct (includes "USDT" (strip s)); [now left | now right].
  - unfold extractSymbol. cbv zeta.
    pose proof (replace_length "USDT" "" (normalizeContract s) Hinc) as H.
    cbn [String.length] in H. lia.
Qed.

(** A pair whose assets do not spell "USDT" is given the quote USDT on top
    of its own: both assets are kept, "USDT" is appended, and
    [extractSymbol] returns the two assets run together. *)
Theorem normalizeContract_appends_quote (f : Format) :
  well_formed f = true ->
  includes "USDT" (core f) = false ->
  normalizeContract (render f) = core f ++ "USDT"
  /\ extractSymbol (render f) = core f.
Proof.
  intros Hwf Hi.
  assert (Hn : normalizeContract (render f) = core f ++ "USDT").
  { rewrite (normalizeContract_render f Hwf). now rewrite Hi. }
  split; [exact Hn|].
  unfold extractSymbol. cbv zeta. rewrite Hn.
  now apply replace_USDT_suffix.
Qed.

Lemma normalizeContract_appends_quote_witness :
  normalizeContract "ETH/BTC" = "ETHBTCUSDT" /\ extractSymbol "ETH/BTC" = "ETHBTC".
Proof.
  apply (normalizeContract_appends_quote (SlashPair "ETH" "BTC")); reflexivity.
Defined.

End SymbolMoreFacts.

(** ** The errors of the retry loops *)

Module ErrorFacts.

Import Adapter Operations Scenarios.
Open Scope string_scope.
Open Scope Z_scope.

Ltac run_in H :=
  cbv beta iota zeta delta
    [getServerTime generateSignature fetch sleep emit now get modify
     bind catch ret throw andb
     set_timeOffset set_lastSyncTime set_syncPromise set_orderCache
     set_ticks set_network set_log
     timeOffset lastSyncTime syncPromise orderCache clock ticks network log] in H.

(** Case analysis on whatever the run in [H] is waiting for. *)
Ltac split_run H :=
  repeat (match type of H with
          | context [match ?x with _ => _ end] =>
            lazymatch x with
            | context [match _ with _ => _ end] => fail
            | _ => destruct x eqn:?
            end
          end; cbv beta iota in H).

Ltac conclude H :=
  first [ discriminate H
        | injection H as <- _; reflexivity ].

Lemma requestAttempts_error (sync : M unit) (endpoint : string) (data : Params)
    (retries : nat) :
  forall (remaining : nat) (w w' : World) (e : Error),
    (1 <= remaining <= retries)%nat ->
    requestAttempts sync endpoint data retries remaining w = (Throw e, w') ->
    attemptError e = true.
Proof.
  induction remaining as [|rest IH]; intros w w' e Hle Hrun; [lia|].
  cbn [requestAttempts] in Hrun. cbv zeta in Hrun.
  destruct rest as [|r].
  - rewrite Nat.sub_0_r, Nat.eqb_refl, Nat.ltb_irrefl in Hrun.
    cbn [requestAttempts] in Hrun.
    run_in Hrun. split_run Hrun; conclude Hrun.
  - assert (E1 : ((retries - S r) =? retries)%nat = false) by (apply Nat.eqb_neq; lia).
    assert (E2 : ((retries - S r) <? retries)%nat = true) by (apply Nat.ltb_lt; lia).
    rewrite E1, E2 in Hrun.
    assert (Hnext : forall w1 : World,
              requestAttempts sync endpoint data retries (S r) w1 = (Throw e, w') ->
              attemptError e = true).
    { intros w1. apply IH. lia. }
    clear IH. generalize dependent (requestAttempts sync endpoint data retries (S r)).
    intros next Hrun Hnext.
    run_in Hrun. split_run Hrun;
      first [ conclude Hrun | exact (Hnext _ Hrun) ].
Qed.

Lemma signedAttempts_error (sync : M unit) (endpoint method : string)
    (params : Params) (retries : nat) :
  forall (remaining : nat) (w w' : World) (e : Error),
    (1 <= remaining <= retries)%nat ->
    signedAttempts sync endpoint params method retries remaining w = (Throw e, w') ->
    attemptError e = true.
Proof.
  induction remaining as [|rest IH]; intros w w' e Hle Hrun; [lia|].
  cbn [signedAttempts] in Hrun. cbv zeta in Hrun.
  destruct rest as [|r].
  - rewrite Nat.sub_0_r, Nat.eqb_refl, Nat.ltb_irrefl in Hrun.
    cbn [signedAttempts] in Hrun.
    run_in Hrun. split_run Hrun; conclude Hrun.
  - assert (E1 : ((retries - S r) =? retries)%nat = false) by (apply Nat.eqb_neq; lia).
    assert (E2 : ((retries - S r) <? retries)%nat = true) by (apply Nat.ltb_lt; lia).
    rewrite E1, E2 in Hrun.
    assert (Hnext : forall w1 : World,
              signedAttempts sync endpoint params method retries (S r) w1 = (Throw e, w') ->
              attemptError e = true).
    { intros w1. apply IH. lia. }
    clear IH.
    generalize dependent (signedAttempts sync endpoint params method retries (S r)).
    intros next Hrun Hnext.
    run_in Hrun. split_run Hrun;
      first [ conclude Hrun | exact (Hnext _ Hrun) ].
Qed.

(** With at least one attempt allowed, a request that fails fails with the
    error of an attempt, the exchange's refusal or the failure of the
    fetch: the closing throw after the loop is never reached, and an error
    of a resynchronisation made between two attempts never reaches the
    caller.  This holds for unsigned and for signed requests. *)
Theorem retry_loops_report_an_attempt
    (depth retries : nat) (endpoint method : string) (params : Params) (w : World) :
  (1 <= retries)%nat ->
  (forall (e : Error) (w' : World),
      publicRequest depth endpoint params retries w = (Throw e, w') ->
      attemptError e = true)
  /\ (forall (e : Error) (w' : World),
        handleSignedRequest depth endpoint params method retries w = (Throw e, w') ->
        attemptError e = true).
Proof.
  intros Hr. split; intros e w' Hrun.
  - apply (requestAttempts_error (syncServerTime depth) endpoint params retries
             retries w w' e); [lia | exact Hrun].
  - apply (signedAttempts_error (syncServerTime depth) endpoint method params retries
             retries w w' e); [lia | exact Hrun].
Qed.

Lemma retry_loops_report_an_attempt_witness :
  fst (handleSignedRequest 1 "/fapi/v1/order" [] "GET" 2 stale_world)
  = Throw (FetchError false)
  /\ attemptError (FetchError false) = true.
Proof.
  split; [vm_compute; reflexivity|].
  destruct (retry_loops_report_an_attempt 1 2 "/fapi/v1/order" "GET" [] stale_world)
    as [_ H]; [lia|].
  apply (H (FetchError false)
           (snd (handleSignedRequest 1 "/fapi/v1/order" [] "GET" 2 stale_world))).
  vm_compute. reflexivity.
Defined.

End ErrorFacts.

(** ** Concurrent callers: the pending synchronisation is shared *)

Module SharingFacts.

Import Concurrent ConcurrentFacts.
Open Scope Z_scope.

Lemma run_app (a b : list Step) (c : Client) :
  run (a ++ b) c
  = match run a c with
    | Some c1 => run b c1
    | None => None
    end.
Proof.
  revert c. induction a as [|s a IH]; intros c; [reflexivity|].
  cbn [app run]. destruct (step s c) as [c1|]; [apply IH | reflexivity].
Qed.

Lemma setNth_length {A : Type} (n : nat) (a : A) (l : list A) :
  length (setNth n a l) = length l.
Proof.
  revert n. induction l as [|x l IH]; intros n; [now destruct n|].
  destruct n as [|n]; cbn [setNth length]; [reflexivity | now rewrite IH].
Qed.

Lemma nth_error_setNth {A : Type} (n : nat) (a x : A) (l : list A) :
  nth_error l n = Some x -> nth_error (setNth n a l) n = Some a.
Proof.
  revert n. induction l as [|y l IH]; intros n H; [now destruct n|].
  destruct n as [|n]; cbn [setNth nth_error] in *; [reflexivity | now apply IH].
Qed.

Lemma setNth_middle {A : Type} (a x y : A) (before after : list A) :
  setNth (length before) a (before ++ x :: after) = (before ++ a :: after)%list
  /\ nth_error (before ++ x :: after) (length before) = Some x.
Proof.
  induction before as [|z before [IH1 IH2]]; [now split|].
  cbn [length app setNth nth_error]. now rewrite IH1.
Qed.

(** Once the shared synchronisation has succeeded, the callers waiting
    for it return one after the other. *)
Lemma resumes_return (p : nat) :
  forall (waiting : list Z) (done : nat) (c : Client),
    settledAs c p = Some true ->
    callers c
    = (repeat Returned done ++ map (fun _ => AwaitingShared p) waiting)%list ->
    exists c' : Client,
      run (map Resume (seq done (length waiting))) c = Some c'
      /\ callers c' = repeat Returned (done + length waiting)
      /\ syncs c' = syncs c
      /\ timeOffset c' = timeOffset c
      /\ lastSyncTime c' = lastSyncTime c
      /\ syncPromise c' = match waiting with
                          | [] => syncPromise c
                          | _ :: _ => None
                          end.
Proof.
  induction waiting as [|t waiting IH]; intros done c Hset Hcallers.
  - exists c. cbn [length seq map run]. rewrite Nat.add_0_r.
    cbn [map] in Hcallers. rewrite app_nil_r in Hcallers.
    repeat split; auto.
  - cbn [length seq map run step]. cbn [map] in Hcallers.
    destruct (setNth_middle Returned (AwaitingShared p) Returned
                (repeat Returned done)
                (map (fun _ => AwaitingShared p) waiting)) as [Hupd Hnth].
    rewrite repeat_length in Hupd, Hnth.
    unfold resume. rewrite Hcallers, Hnth, Hset, Hupd.
    match goal with
    | |- context [run _ ?c1] =>
      destruct (IH (S done) c1) as (c' & Hrun & Hc & Hs & Ho & Hl & Hp)
    end.
    + exact Hset.
    + cbn [callers]. change (Returned :: ?l) with ([Returned] ++ l)%list.
      rewrite app_assoc. f_equal.
      change [Returned] with (repeat Returned 1). rewrite <- repeat_app.
      f_equal. lia.
    + exists c'. split; [exact Hrun|].
      cbn [callers syncs timeOffset lastSyncTime syncPromise] in *.
      rewrite Hc, Hs, Ho, Hl. repeat split; try reflexivity.
      * f_equal. lia.
      * rewrite Hp. now destruct waiting.
Qed.

(** The synchronisation held in [syncPromise] is shared by all who ask
    while it is pending: however many callers enter before its time query
    is answered, no further query is sent; once the answer has arrived
    they all return, the offset is the one computed from that single
    answer, and the first caller to return clears [syncPromise]. *)
Theorem pending_sync_is_shared
    (nows : list Z) (c : Client) (p : nat) (start serverTime t1 t2 : Z) :
  syncPromise c = Some p ->
  nth_error (syncs c) p = Some {| t0 := start; settled := None |} ->
  callers c = [] ->
  exists c' : Client,
    run (map Call nows ++ Reply p serverTime t1 t2
           :: map Resume (seq 0 (length nows))) c = Some c'
    /\ roundTrips c' = roundTrips c
    /\ callers c' = repeat Returned (length nows)
    /\ timeOffset c'
       = serverTime + (t1 - start) / 2 - t1 - Adapter.SAFETY_MARGIN_MS
    /\ lastSyncTime c' = t2
    /\ syncPromise c' = match nows with
                        | [] => Some p
                        | _ :: _ => None
                        end.
Proof.
  intros Hp Hsync Hnone.
  destruct (calls_share_pending nows c p Hp) as (c1 & Hrun1 & Hs1 & Hp1 & Hc1).
  rewrite Hnone in Hc1. cbn [app] in Hc1.
  rewrite run_app, Hrun1. cbn [run step]. unfold reply.
  rewrite Hs1, Hsync. cbv zeta.
  match goal with
  | |- context [run _ ?c2] =>
    destruct (resumes_return p nows 0 c2) as (c' & Hrun & Hc & Hs & Ho & Hl & Hq)
  end.
  - unfold settledAs. cbn [syncs].
    now rewrite (nth_error_setNth p _ _ (syncs c) Hsync).
  - cbn [callers repeat app]. exact Hc1.
  - exists c'. split; [exact Hrun|].
    cbn [callers syncs timeOffset lastSyncTime syncPromise] in *.
    unfold roundTrips. rewrite Hs, setNth_length.
    repeat split; try assumption.
    rewrite Hq, Hp1. reflexivity.
Qed.

Lemma pending_sync_is_shared_witness :
  exists c' : Client,
    run [Call 1000; Call 1001; Call 1002; Reply 0 7000 1100 1100;
         Resume 0; Resume 1; Resume 2] (created 1000) = Some c'
    /\ roundTrips c' = 1%nat
    /\ callers c' = [Returned; Returned; Returned].
Proof.
  destruct (pending_sync_is_shared [1000; 1001; 1002] (created 1000) 0 1000
              7000 1100 1100) as (c' & Hrun & Hr & Hc & _);
    [reflexivity | reflexivity | reflexivity |].
  exists c'. split; [exact Hrun|]. split; [exact Hr | exact Hc].
Defined.

End SharingFacts.
